(** * solana-web3.js (Exodus fork): lookup-table reader, loader sizing,
      websocket endpoints and the message wire format

    A shallow embedding of
      - [src/loader.ts]                              ([Loader]),
      - [makeWebsocketUrl]                           ([WebsocketUrl]),
      - [src/message/address-lookup-table/state.ts]  ([LookupTable]),
    and of the compact-array and message codecs described in sections 4.1
    and 4.4 of the specification ([CompactArrayCodec], [MessageCodec]).

    JavaScript numbers that hold integers are modelled by [Z]; where the
    53-bit significand of a double matters (the [nu64] layout, the sums
    and the quotient of the loader) the rounding is written out.  A
    [Uint8Array] is a [list byte].  A call that may throw returns a
    [result]. *)

From Stdlib Require Import ZArith Lia String Ascii.
From Stdlib Require Import Strings.Byte DecimalString.
From stdpp Require Import base tactics option list.

Local Open Scope Z_scope.

(** ** Exceptions *)

(** The JavaScript exceptions the embedded code can raise: [Error(message)]
    thrown by the library itself and the [RangeError] of an out-of-bounds
    [Buffer] read. *)
Inductive exn : Type :=
  | Error (message : string)
  | RangeError.

Inductive result (A : Type) : Type :=
  | Ok (a : A)
  | Throw (e : exn).
Arguments Ok {A} a.
Arguments Throw {A} e.

Definition is_Ok {A} (r : result A) : Prop := exists a, r = Ok a.
Definition is_Throw {A} (r : result A) : Prop := exists e, r = Throw e.

Definition result_bind {A B} (r : result A) (k : A -> result B) : result B :=
  match r with
  | Ok a => k a
  | Throw e => Throw e
  end.

Lemma is_Ok_not_Throw {A} (r : result A) : is_Ok r <-> ~ is_Throw r.
Proof.
  split.
  - intros [a ->] [e He]. discriminate.
  - intros H. destruct r as [a|e]; [by exists a|]. exfalso. apply H. by exists e.
Qed.

(** ** [makeWebsocketUrl] *)

Module WebsocketUrl.

(** [String.prototype.startsWith] *)
Definition startsWith (s p : string) : bool := String.prefix p s.

(** The characters of [s] from position [n] on. *)
Fixpoint string_drop (n : nat) (s : string) : string :=
  match n, s with
  | O, _ => s
  | S n', EmptyString => EmptyString
  | S n', String _ s' => string_drop n' s'
  end.

(** [s.replace(/^https:/, 'wss:')]: the pattern is anchored at the start
    of the string, so at most the leading occurrence is replaced. *)
Definition replace_leading_https (s : string) : string :=
  if String.prefix "https:" s
  then String.append "wss:" (string_drop 6 s)
  else s.

Definition makeWebsocketUrl (endpoint : string) : result string :=
  if negb (startsWith endpoint "https://")
  then Throw (Error (String.append "unsupported URL: " endpoint))
  else Ok (replace_leading_https endpoint).

End WebsocketUrl.

(** ** Byte arrays and JavaScript numbers *)

Definition Uint8Array : Type := list byte.

Definition byte_to_Z (b : byte) : Z := Z.of_N (Byte.to_N b).

(** The byte with value [z mod 256]. *)
Definition byte_of_Z (z : Z) : byte :=
  match Byte.of_N (Z.to_N (z mod 256)) with
  | Some b => b
  | None => x00
  end.

(** Unsigned value of a little-endian byte string. *)
Fixpoint le_unsigned (bs : list byte) : Z :=
  match bs with
  | [] => 0
  | b :: bs' => byte_to_Z b + 256 * le_unsigned bs'
  end.

(** The double nearest to the non-negative integer [z], ties to the even
    significand: integers below [2^53] are exact, larger ones keep 53
    significant bits. *)
Definition round_to_double (z : Z) : Z :=
  if z <? 2 ^ 53 then z
  else
    let e := Z.log2 z - 52 in
    let q := z / 2 ^ e in
    let r := z mod 2 ^ e in
    if 2 * r <? 2 ^ e then q * 2 ^ e
    else if 2 ^ e <? 2 * r then (q + 1) * 2 ^ e
    else if Z.even q then q * 2 ^ e
    else (q + 1) * 2 ^ e.

(** ** JavaScript numbers: quotients *)

(** The integer nearest to [n / d] for [0 < d], ties to the even one. *)
Definition round_half_even (n d : Z) : Z :=
  let q := n / d in
  let r := n mod d in
  if 2 * r <? d then q
  else if d <? 2 * r then q + 1
  else if Z.even q then q
  else q + 1.

(** A finite double that need not be an integer, as the format keeps it:
    the number [significand * 2 ^ exponent]. *)
Record double : Type := mkDouble {
  significand : Z;
  exponent : Z;
}.

(** The exponent [e] of the quotient of two positive integers:
    [2 ^ e <= a / b < 2 ^ (e + 1)]. *)
Definition quotient_exponent (a b : Z) : Z :=
  let e := Z.log2 a - Z.log2 b in
  if a * 2 ^ Z.max 0 (- e) <? b * 2 ^ Z.max 0 e then e - 1 else e.

(** [a / b] for integers [0 <= a] and [0 < b] that are doubles: the
    quotient rounded to 53 significant bits, ties to even.  (A quotient
    below [2^-1022] has fewer bits in the format; it is positive and
    below 1 there as it is here.) *)
Definition Number_div (a b : Z) : double :=
  if a =? 0 then mkDouble 0 0
  else
    let e := quotient_exponent a b in
    if e <=? 52
    then mkDouble (round_half_even (a * 2 ^ (52 - e)) b) (e - 52)
    else mkDouble (round_half_even a (b * 2 ^ (e - 52))) (e - 52).

(** [Math.ceil(x)] *)
Definition Math_ceil (x : double) : Z :=
  if 0 <=? exponent x then significand x * 2 ^ exponent x
  else - ((- significand x) / 2 ^ (- exponent x)).

(** ** Loader: [src/loader.ts] *)

Module Loader.
Section WithPacketSize.

(** [PACKET_DATA_SIZE] is imported from [./transaction], a module that
    is missing: the constant is a parameter of the development. *)
Variable PACKET_DATA_SIZE : Z.

(** [const CHUNK_SIZE = PACKET_DATA_SIZE - 300;] *)
Definition CHUNK_SIZE : Z := PACKET_DATA_SIZE - 300.

(** [static chunkSize: number = CHUNK_SIZE;] *)
Definition chunkSize : Z := CHUNK_SIZE.

(** [static getMinNumSignatures(dataLength: number): number], for a
    [dataLength] that is a non-negative integer and a positive chunk
    size: the quotient and the two sums are rounded as doubles are; the
    doubling is exact. *)
Definition getMinNumSignatures (dataLength : Z) : Z :=
  2 * round_to_double
        (round_to_double (Math_ceil (Number_div dataLength chunkSize) + 1) + 1).

End WithPacketSize.

(** The ceiling of the exact quotient [a / b] for [0 < b]: the least
    integer not below it.  The statements about [getMinNumSignatures]
    compare the method with it. *)
Definition ceil_div (a b : Z) : Z := - ((- a) / b).

End Loader.

Declare Scope result_scope.
Delimit Scope result_scope with result.
Notation "x <- r ;; k" := (result_bind r (fun x => k))
  (at level 100, r at next level, right associativity) : result_scope.
Local Open Scope result_scope.

(** ** The parts of [@solana/buffer-layout] used by the lookup-table reader *)

Module BufferLayout.

(** [Buffer.prototype.readUIntLE(offset, byteLength)]: a [RangeError]
    when the read leaves the buffer. *)
Definition readUIntLE (b : Uint8Array) (offset : Z) (byteLength : nat)
  : result Z :=
  if (0 <=? offset) && (offset + Z.of_nat byteLength <=? Z.of_nat (length b))
  then Ok (le_unsigned (take byteLength (drop (Z.to_nat offset) b)))
  else Throw RangeError.

(** [Buffer.prototype.slice(start, end)] for [0 <= start]: the bounds
    are clamped to the buffer, nothing is thrown. *)
Definition slice (b : Uint8Array) (start end_ : Z) : Uint8Array :=
  take (Z.to_nat (end_ - start)) (drop (Z.to_nat start) b).

(** A layout: how to decode a value at an offset, and its fixed span. *)
Record Layout (A : Type) : Type := mkLayout {
  decode : Uint8Array -> Z -> result A;
  span : Z;
}.
Arguments mkLayout {A} decode span.
Arguments decode {A} _ b offset.
Arguments span {A} _.

Definition u8 : Layout Z := mkLayout (fun b offset => readUIntLE b offset 1) 1.

Definition u32 : Layout Z := mkLayout (fun b offset => readUIntLE b offset 4) 4.

(** [roundedInt64(hi32, lo32) = hi32 * 2^32 + lo32], computed on doubles:
    the product is exact, the sum is rounded once. *)
Definition roundedInt64 (hi32 lo32 : Z) : Z :=
  round_to_double (hi32 * 2 ^ 32 + lo32).

(** [nu64]: [NearUInt64], a 64-bit little-endian unsigned integer decoded
    to a JavaScript number. *)
Definition nu64 : Layout Z :=
  mkLayout
    (fun b offset =>
       lo32 <- readUIntLE b offset 4 ;;
       hi32 <- readUIntLE b (offset + 4) 4 ;;
       Ok (roundedInt64 hi32 lo32))
    8.

(** [blob(length)]: the [length] bytes at the offset, as [slice] gives
    them. *)
Definition blob (length : Z) : Layout Uint8Array :=
  mkLayout (fun b offset => Ok (slice b offset (offset + length))) length.

(** [offset(layout, delta)]: an external layout read [delta] bytes away
    from where it is used. *)
Definition offset {A} (layout : Layout A) (delta : Z) : Layout A :=
  mkLayout (fun b off => decode layout b (off + delta)) (span layout).

(** The count of a sequence: a number, or an external layout decoded at
    the start of the sequence. *)
Inductive SeqCount : Type :=
  | Fixed (count : Z)
  | External (count : Layout Z).

(** The loop of [Sequence.decode]: [count] elements, each decoded where
    the previous one ends. *)
Fixpoint seq_loop {A} (elementLayout : Layout A) (count : nat)
    (b : Uint8Array) (offset : Z) : result (list A) :=
  match count with
  | O => Ok []
  | S count' =>
      x <- decode elementLayout b offset ;;
      xs <- seq_loop elementLayout count' b (offset + span elementLayout) ;;
      Ok (x :: xs)
  end.

Definition seq_decode {A} (elementLayout : Layout A) (count : SeqCount)
    (b : Uint8Array) (offset : Z) : result (list A) :=
  n <- match count with
       | Fixed n => Ok n
       | External l => decode l b offset
       end ;;
  seq_loop elementLayout (Z.to_nat n) b offset.

(** [seq(elementLayout, count)].  With a fixed count the span is
    [count * span elementLayout]; with an external count the library
    records the span as variable ([-1]). *)
Definition seq {A} (elementLayout : Layout A) (count : SeqCount)
  : Layout (list A) :=
  mkLayout (seq_decode elementLayout count)
    match count with
    | Fixed n => n * span elementLayout
    | External _ => -1
    end.

End BufferLayout.

(** ** Repository modules imported by [state.ts] that are missing *)

(** Modelled from the spec: [PublicKey] of [src/publickey.ts] is missing.
    Section 3 describes an Address as a 32-byte identifier whose equality
    is byte equality; the constructor accepts exactly 32 bytes. *)
Record PublicKey : Type := mkPublicKey { toBytes : Uint8Array }.

Definition PublicKey_new (value : Uint8Array) : result PublicKey :=
  if decide (length value = 32%nat)
  then Ok (mkPublicKey value)
  else Throw (Error "Invalid public key input").

(** Modelled from the spec: [Layout.publicKey] of [src/layout.ts] is
    missing.  Section 6 has the addresses of a lookup table as 32-byte
    fields: a 32-byte blob. *)
Definition Layout_publicKey : BufferLayout.Layout Uint8Array :=
  BufferLayout.blob 32.

(** Modelled from the spec: [assert] of [src/util/assert.ts] is missing;
    it raises an error carrying the message when the condition is false. *)
Definition assert (condition : bool) (message : string) : result unit :=
  if condition then Ok tt else Throw (Error message).

(** [String(value)] of an exception, as string concatenation forms it:
    the name of the error and its message.  (The text after the name of
    a [RangeError] is worded by the platform's [Buffer]; only the name is
    kept.) *)
Definition exn_toString (e : exn) : string :=
  match e with
  | Error message => String.append "Error: " message
  | RangeError => "RangeError"
  end.

(** [String(n)] for an integer. *)
Definition number_toString (n : Z) : string :=
  NilZero.string_of_int (Z.to_int n).

(** The decoded data of an account type carries a [typeIndex]. *)
Class IAccountStateData (A : Type) : Type := get_typeIndex : A -> Z.

(** The argument of [decodeData]: a type index and a layout. *)
Record AccountType (A : Type) : Type := mkAccountType {
  index : Z;
  layout : BufferLayout.Layout A;
}.
Arguments mkAccountType {A} index layout.
Arguments index {A} _.
Arguments layout {A} _.

(** Modelled from the spec: [decodeData] of [src/account-data.ts] is
    missing.  Section 1 describes it as a generic fixed-layout field
    decoder for raw ledger account bytes, and section 6 has the type
    tag as the first field of the lookup-table metadata; [state.ts]
    hands it the layout together with the index 1 that tag is to have.
    It decodes the layout from the start of the data, rethrows a failure
    of the decoder as an [Error], and refuses data whose decoded
    [typeIndex] is not the index of the account type. *)
Definition decodeData {A} `{IAccountStateData A}
    (type : AccountType A) (data : Uint8Array) : result A :=
  decoded <- match BufferLayout.decode (layout type) data 0 with
             | Ok decoded => Ok decoded
             | Throw err =>
                 Throw (Error (String.append "invalid instruction; "
                                 (exn_toString err)))
             end ;;
  if get_typeIndex decoded =? index type then Ok decoded
  else
    Throw (Error (String.append
                    "invalid account data; account type mismatch "
                    (String.append (number_toString (get_typeIndex decoded))
                       (String.append " != "
                          (number_toString (index type)))))).

(** ** [src/message/address-lookup-table/state.ts] *)

Module LookupTable.
Import BufferLayout.

Record AddressLookupTableState : Type := mkState {
  deactivationSlot : Z;
  lastExtendedSlot : Z;
  lastExtendedSlotStartIndex : Z;
  authority : option PublicKey;
  addresses : list PublicKey;
}.

Record AddressLookupTableAccount : Type := mkAccount {
  key : PublicKey;
  state : AddressLookupTableState;
}.

(** [const LOOKUP_TABLE_META_SIZE = 56;] *)
Definition LOOKUP_TABLE_META_SIZE : Z := 56.

(** The object decoded by [LookupTableMetaLayout.layout]. *)
Record LookupTableMeta : Type := mkMeta {
  typeIndex : Z;
  meta_deactivationSlot : Z;
  meta_lastExtendedSlot : Z;
  lastExtendedStartIndex : Z;
  meta_authority : list Uint8Array;
}.

(** [BufferLayout.struct([...])] of [LookupTableMetaLayout]: the fields
    are decoded in order, each at the offset where the previous one
    ends; the unnamed [u8] (the option marker) is skipped over, and is
    read by the count of the authority sequence, one byte back. *)
Definition LookupTableMeta_struct : Layout LookupTableMeta :=
  mkLayout
    (fun b offset0 =>
       typeIndex <- decode u32 b offset0 ;;
       let offset1 := offset0 + span u32 in
       deactivationSlot <- decode nu64 b offset1 ;;
       let offset2 := offset1 + span nu64 in
       lastExtendedSlot <- decode nu64 b offset2 ;;
       let offset3 := offset2 + span nu64 in
       lastExtendedStartIndex <- decode u8 b offset3 ;;
       let offset4 := offset3 + span u8 in
       let offset5 := offset4 + span u8 in
       authority <-
         decode (seq Layout_publicKey (External (offset u8 (-1)))) b offset5 ;;
       Ok (mkMeta typeIndex deactivationSlot lastExtendedSlot
             lastExtendedStartIndex authority))
    (-1).

#[global] Instance LookupTableMeta_data : IAccountStateData LookupTableMeta :=
  typeIndex.

Definition LookupTableMetaLayout : AccountType LookupTableMeta :=
  mkAccountType 1 LookupTableMeta_struct.

(** *** The method body, over the store holding [accountData]

    A computation receives the bytes of [accountData] and returns its
    outcome together with the bytes [accountData] holds afterwards. *)
Definition M (A : Type) : Type := Uint8Array -> result A * Uint8Array.

Definition M_ret {A} (a : A) : M A := fun buf => (Ok a, buf).

Definition M_bind {A B} (m : M A) (k : A -> M B) : M B :=
  fun buf =>
    match m buf with
    | (Ok a, buf') => k a buf'
    | (Throw e, buf') => (Throw e, buf')
    end.

(** A call that only reads [accountData]. *)
Definition M_read {A} (f : Uint8Array -> result A) : M A :=
  fun buf => (f buf, buf).

(** [accountData[offset] = value]: an assignment to an element, the way
    the bytes of [accountData] change; beyond the end of the array it
    has no effect. *)
Definition M_write (offset : nat) (value : byte) : M unit :=
  fun buf => (Ok tt, <[offset := value]> buf).

(** A call that is handed neither [accountData] nor bytes taken from
    it. *)
Definition M_lift {A} (r : result A) : M A := fun buf => (r, buf).

Notation "x <~ m ;; k" := (M_bind m (fun x => k))
  (at level 100, m at next level, right associativity).

(** [Array.prototype.map] with a callback that may throw. *)
Fixpoint map_result {A B} (f : A -> result B) (l : list A)
  : result (list B) :=
  match l with
  | [] => Ok []
  | x :: l' => y <- f x ;; ys <- map_result f l' ;; Ok (y :: ys)
  end.

(** [Array.prototype.map] with a callback that runs over the store. *)
Fixpoint M_map {A B} (f : A -> M B) (l : list A) : M (list B) :=
  match l with
  | [] => M_ret []
  | x :: l' => y <~ f x ;; ys <~ M_map f l' ;; M_ret (y :: ys)
  end.

Section Callees.

(** [deserialize] hands [accountData], or arrays that may share its
    memory (the arrays a blob layout decodes are views of the array
    decoded, and so is the slice of a [Buffer]), to code that is not in
    [state.ts]: [decodeData], the [decode] of the address layout and the
    [PublicKey] constructor.  What each of these calls does is a
    computation over the store.  [assert] is handed a boolean and a
    string only. *)
Variable call_decodeData : M LookupTableMeta.
Variable call_decode_addresses : Z -> Uint8Array -> M (list Uint8Array).
Variable call_new_PublicKey : Uint8Array -> M PublicKey.

(** The body of [deserialize]: the addresses are decoded by a [struct]
    whose only field is the sequence [addresses], from offset 0 of the
    slice; in the returned object the authority is built before the
    addresses. *)
Definition deserialize_with : M AddressLookupTableState :=
  meta <~ call_decodeData ;;
  accountData_length <~ M_read (fun b => Ok (Z.of_nat (length b))) ;;
  let serializedAddressesLen := accountData_length - LOOKUP_TABLE_META_SIZE in
  _ <~ M_lift (assert (0 <=? serializedAddressesLen) "lookup table is invalid") ;;
  _ <~ M_lift (assert (Z.rem serializedAddressesLen 32 =? 0)
                 "lookup table is invalid") ;;
  let numSerializedAddresses := serializedAddressesLen / 32 in
  sliced <~ M_read (fun b =>
              Ok (slice b LOOKUP_TABLE_META_SIZE (Z.of_nat (length b)))) ;;
  addresses <~ call_decode_addresses numSerializedAddresses sliced ;;
  authority <~ match meta_authority meta with
               | [] => M_ret None
               | a :: _ => pk <~ call_new_PublicKey a ;; M_ret (Some pk)
               end ;;
  addresses <~ M_map call_new_PublicKey addresses ;;
  M_ret (mkState (meta_deactivationSlot meta) (meta_lastExtendedSlot meta)
           (lastExtendedStartIndex meta) authority addresses).

End Callees.

(** [static deserialize(accountData: Uint8Array): AddressLookupTableState],
    with the three calls as they are modelled: each reads the bytes it
    is handed. *)
Definition deserialize : M AddressLookupTableState :=
  deserialize_with
    (M_read (decodeData LookupTableMetaLayout))
    (fun numSerializedAddresses sliced =>
       M_lift (decode (seq Layout_publicKey (Fixed numSerializedAddresses))
                 sliced 0))
    (fun value => M_lift (PublicKey_new value)).

(** A computation that leaves the bytes of [accountData] as they
    were. *)
Definition preserves {A} (m : M A) : Prop := forall buf, snd (m buf) = buf.

(** What the caller of [deserialize accountData] observes: the returned
    state or the exception. *)
Definition deserialize_outcome (accountData : Uint8Array)
  : result AddressLookupTableState :=
  fst (deserialize accountData).

(** *** [isActive]

    [bn.js] is an external library: the method is embedded over the
    three operations it calls. *)
Class BigNum : Type := mkBigNum {
  BN : Type;
  (** [new BN(string)] *)
  BN_of_string : string -> result BN;
  (** [new BN(number)] *)
  BN_of_number : Z -> result BN;
  (** [a.eq(b)] *)
  BN_eq : BN -> BN -> bool;
}.

Definition isActive `{BigNum} (this : AddressLookupTableAccount)
  : result bool :=
  U64_MAX <- BN_of_string "0xffffffffffffffff" ;;
  slot <- BN_of_number (deactivationSlot (state this)) ;;
  Ok (BN_eq slot U64_MAX).

(** The constructors of [bn.js] (version 5) that [isActive] calls, with
    big numbers as integers.  [new BN(string)] reads the string in base
    10: white space is dropped, a leading minus sign negates, and a
    character that is not a decimal digit fails the assertion
    'Invalid character'.  [new BN(number)] asserts that the number is
    below [2^53]. *)
Definition is_white_space (c : ascii) : bool :=
  let n := Z.of_N (N_of_ascii c) in
  ((9 <=? n) && (n <=? 13)) || (n =? 32).

Fixpoint remove_white_space (s : string) : string :=
  match s with
  | EmptyString => EmptyString
  | String c s' =>
      if is_white_space c then remove_white_space s'
      else String c (remove_white_space s')
  end.

(** [parseBase(str, start, end, 10)]: the digits are accumulated from the
    left; for the code [c] of a character less 48, a letter stands for
    10 and more, and [c >= 0 && b < 10] is asserted. *)
Fixpoint parseBase (acc : Z) (s : string) : result Z :=
  match s with
  | EmptyString => Ok acc
  | String ch s' =>
      let c := Z.of_N (N_of_ascii ch) - 48 in
      let b := if 49 <=? c then c - 49 + 10
               else if 17 <=? c then c - 17 + 10
               else c in
      if (0 <=? c) && (b <? 10) then parseBase (10 * acc + b) s'
      else Throw (Error "Invalid character")
  end.

Definition safe_integers : BigNum :=
  mkBigNum Z
    (fun s =>
       match remove_white_space s with
       | String "-" digits => n <- parseBase 0 digits ;; Ok (- n)
       | digits => parseBase 0 digits
       end)
    (fun n => if n <? 2 ^ 53 then Ok n else Throw (Error "Assertion failed"))
    Z.eqb.

End LookupTable.

(** *** What the layout says about [accountData]

    The reference description of a decoded lookup table, used to state
    what [deserialize] returns. *)

Module LookupTableSpec.
Import LookupTable.

(** The two length conditions on the account data. *)
Definition valid_length (accountData : Uint8Array) : Prop :=
  (56 <= length accountData)%nat
  /\ ((length accountData - 56) mod 32 = 0)%nat.

(** The little-endian unsigned integer in the [n] bytes at [offset]. *)
Definition uint_at (accountData : Uint8Array) (offset n : nat) : Z :=
  le_unsigned (take n (drop offset accountData)).

(** The JavaScript number [nu64] yields for the 8 bytes at [offset]. *)
Definition nu64_at (accountData : Uint8Array) (offset : nat) : Z :=
  BufferLayout.roundedInt64 (uint_at accountData (offset + 4) 4)
    (uint_at accountData offset 4).

(** The [i]-th 32-byte address after the 56-byte metadata. *)
Definition address_at (accountData : Uint8Array) (i : nat) : PublicKey :=
  mkPublicKey (take 32 (drop (56 + 32 * i) accountData)).

(** The authority: present when the marker byte at offset 21 is not
    zero, and then the 32 bytes that follow the marker. *)
Definition authority_at (accountData : Uint8Array) : option PublicKey :=
  if decide (uint_at accountData 21 1 = 0) then None
  else Some (mkPublicKey (take 32 (drop 22 accountData))).

Definition decoded_state (accountData : Uint8Array)
  : AddressLookupTableState :=
  mkState (nu64_at accountData 4) (nu64_at accountData 12)
    (uint_at accountData 20 1) (authority_at accountData)
    (map (address_at accountData)
       (List.seq 0 ((length accountData - 56) / 32))).

(** The elements [Sequence.decode] produces for 32-byte blobs. *)
Fixpoint blobs (n : nat) (b : Uint8Array) (offset : Z) : list Uint8Array :=
  match n with
  | O => []
  | S n' => BufferLayout.slice b offset (offset + 32) :: blobs n' b (offset + 32)
  end.

(** The account data [deserialize] accepts: of a valid length and with
    the type tag of a lookup table. *)
Definition accepted (accountData : Uint8Array) : Prop :=
  valid_length accountData /\ uint_at accountData 0 4 = 1.

(** Every field of the state holds the completely decoded value of its
    part of the account data: the two slots and the start index, the
    authority (present exactly when the marker is not zero, and then
    the 32 bytes after it), and one 32-byte address for every group of
    32 bytes after the metadata, in order. *)
Definition fully_populated (accountData : Uint8Array)
    (s : AddressLookupTableState) : Prop :=
  deactivationSlot s = nu64_at accountData 4
  /\ lastExtendedSlot s = nu64_at accountData 12
  /\ lastExtendedSlotStartIndex s = uint_at accountData 20 1
  /\ authority s = authority_at accountData
  /\ (forall pk, authority s = Some pk -> length (toBytes pk) = 32%nat)
  /\ addresses s
     = map (address_at accountData)
         (List.seq 0 ((length accountData - 56) / 32))
  /\ Forall (fun pk => length (toBytes pk) = 32%nat) (addresses s).

(** What a failed call hands to its caller: an [Error] whose content is
    a message, one of the three the call can raise. *)
Definition failure_report (e : exn) : Prop :=
  e = Error "lookup table is invalid"
  \/ (exists detail,
        e = Error (String.append "invalid instruction; " detail))
  \/ (exists detail,
        e = Error (String.append
                     "invalid account data; account type mismatch " detail)).

End LookupTableSpec.

(** *** Concrete account data *)

Module LookupTableSamples.

(** Account data of a lookup table: type tag 1, the given 8 bytes of
    deactivation slot, last extended slot 7, start index 5, the given
    option marker, an authority of 32 bytes [0xaa], two bytes of
    padding and two addresses. *)
Definition table_data (deactivationSlotBytes : list byte) (marker : byte)
  : Uint8Array :=
  [x01; x00; x00; x00] ++ deactivationSlotBytes
    ++ [x07; x00; x00; x00; x00; x00; x00; x00]
    ++ [x05] ++ [marker] ++ replicate 32 xaa ++ [x00; x00]
    ++ replicate 32 x11 ++ replicate 32 x22.

(** A table that has not been deactivated: the deactivation slot is the
    sentinel, all 64 bits set. *)
Definition active_table : Uint8Array := table_data (replicate 8 xff) x01.

(** A table whose deactivation slot is [2^64 - 2], one below the
    sentinel. *)
Definition other_table : Uint8Array :=
  table_data (xfe :: replicate 7 xff) x01.

(** A table without authority. *)
Definition frozen_table : Uint8Array := table_data (replicate 8 xff) x00.

(** The data of an account of the lookup-table program that has not been
    initialized: 56 zero bytes, type tag 0. *)
Definition uninitialized_table : Uint8Array := replicate 56 x00.

End LookupTableSamples.

(** ** The wire format of sections 4.1 and 4.4

    The message classes and the short-vector encoding of the repository
    are missing; the codecs below follow the specification. *)

(** The validation failures of section 7 that the codecs can report. *)
Inductive failure : Type :=
  | MalformedLength
  | MalformedMessage
  | UnsupportedMessageVersion.

Inductive outcome (A : Type) : Type :=
  | Success (a : A)
  | Failure (e : failure).
Arguments Success {A} a.
Arguments Failure {A} e.

(** A decoder consumes a prefix of the input and returns the value with
    the bytes that remain. *)
Definition decoder (A : Type) : Type := list byte -> outcome (A * list byte).

Definition decoder_bind {A B} (r : outcome (A * list byte))
    (k : A -> list byte -> outcome B) : outcome B :=
  match r with
  | Success (a, rest) => k a rest
  | Failure e => Failure e
  end.

Declare Scope decoder_scope.
Delimit Scope decoder_scope with decoder.
Notation "'let*' ( x , rest ) := r 'in' k" :=
  (decoder_bind r (fun x rest => k))
  (at level 10, x name, rest name, r at level 100, k at level 200)
  : decoder_scope.
Local Open Scope decoder_scope.

(** A codec for values of type [A]: the encoder, the decoder and the
    values the encoding can express.  The decoder has two readings: the
    plain one of the specification, and a strict one ([strict = true])
    that also refuses a length prefix longer than necessary; the strict
    reading is what defines well-formed input. *)
Record Codec (A : Type) : Type := mkCodec {
  encodeItem : A -> list byte;
  decodeItem : bool -> decoder A;
  expressible : A -> Prop;
}.
Arguments mkCodec {A} encodeItem decodeItem expressible.
Arguments encodeItem {A} _ a.
Arguments decodeItem {A} _ strict bytes.
Arguments expressible {A} _ a.

Module CompactArrayCodec.

(** Modelled from the spec: the length encoder of section 4.1 is
    missing.  A base-128 varint, least significant group first: 7 data
    bits per byte, the high bit set on every byte but the last; at most
    3 bytes. *)
Fixpoint encode_loop (fuel : nat) (n : Z) : list byte :=
  match fuel with
  | O => []
  | S fuel' =>
      if n <? 128 then [byte_of_Z n]
      else byte_of_Z (n mod 128 + 128) :: encode_loop fuel' (n / 128)
  end.

Definition encode (length : Z) : list byte := encode_loop 3 length.

(** Modelled from the spec: the length decoder of section 4.1 is
    missing.  It fails with [MalformedLength] when the input ends
    inside the length, when the continuation chain exceeds 3 bytes, and
    when the value needs more than 16 bits.  [weight] is the value of
    the lowest data bit of the next byte, [acc] the value read so far.
    The strict reading refuses a final byte without data bits after a
    continuation byte. *)
Fixpoint decode_loop (strict : bool) (fuel : nat) (weight acc : Z)
    (bytes : list byte) : outcome (Z * list byte) :=
  match fuel, bytes with
  | O, _ => Failure MalformedLength
  | S _, [] => Failure MalformedLength
  | S fuel', b :: rest =>
      let v := byte_to_Z b in
      if v <? 128 then
        if strict && (v =? 0) && (1 <? weight) then Failure MalformedLength
        else Success (acc + weight * v, rest)
      else decode_loop strict fuel' (weight * 128) (acc + weight * (v - 128)) rest
  end.

Definition decode_prefix (strict : bool) : decoder Z :=
  fun bytes =>
    let* (n, rest) := decode_loop strict 3 1 0 bytes in
    if n <=? 65535 then Success (n, rest) else Failure MalformedLength.

(** [decode(bytes, offset) -> (length, bytesConsumed)] *)
Definition decode (bytes : list byte) (offset : nat) : outcome (Z * nat) :=
  let* (n, rest) := decode_prefix false (drop offset bytes) in
  Success (n, (length bytes - offset - length rest)%nat).

(** The length prefix as a codec of the numbers [0 .. 65535]. *)
Definition compactU16 : Codec Z :=
  mkCodec encode decode_prefix (fun n => 0 <= n <= 65535).

(** Modelled from the spec: [encodeArray(items, itemEncoder)] prefixes
    the count. *)
Definition encodeArray {A} (items : list A) (itemEncoder : A -> list byte)
  : list byte :=
  encode (Z.of_nat (length items)) ++ concat (map itemEncoder items).

Fixpoint decode_items {A} (itemDecoder : decoder A) (count : nat)
    (bytes : list byte) : outcome (list A * list byte) :=
  match count with
  | O => Success ([], bytes)
  | S count' =>
      let* (x, rest) := itemDecoder bytes in
      let* (xs, rest') := decode_items itemDecoder count' rest in
      Success (x :: xs, rest')
  end.

(** Modelled from the spec: [decodeArray] mirrors [encodeArray]; the
    count is checked against the bytes that remain (an item takes at
    least one byte), and input that ends early is a
    [MalformedMessage]. *)
Definition decodeArray {A} (strict : bool) (itemDecoder : decoder A)
  : decoder (list A) :=
  fun bytes =>
    let* (count, rest) := decode_prefix strict bytes in
    if Z.of_nat (length rest) <? count then Failure MalformedMessage
    else decode_items itemDecoder (Z.to_nat count) rest.

(** [compactArray(items, ...)] of section 4.4. *)
Definition compactArray {A} (item : Codec A) : Codec (list A) :=
  mkCodec
    (fun items => encodeArray items (encodeItem item))
    (fun strict => decodeArray strict (decodeItem item strict))
    (fun items => Z.of_nat (length items) <= 65535
                  /\ Forall (expressible item) items).

End CompactArrayCodec.

Module MessageCodec.
Import CompactArrayCodec.

(** *** Building blocks of the byte layout *)

(** One byte. *)
Definition u8 : Codec byte :=
  mkCodec
    (fun b => [b])
    (fun _ bytes =>
       match bytes with
       | b :: rest => Success (b, rest)
       | [] => Failure MalformedMessage
       end)
    (fun _ => True).

(** A field of exactly [n] raw bytes. *)
Definition fixedBytes (n : nat) : Codec (list byte) :=
  mkCodec
    (fun value => value)
    (fun _ bytes =>
       if decide (length bytes < n)%nat then Failure MalformedMessage
       else Success (take n bytes, drop n bytes))
    (fun value => length value = n).

(** Two fields one after the other: [first | second]. *)
Definition followedBy {A B} (first : Codec A) (second : Codec B)
  : Codec (A * B) :=
  mkCodec
    (fun v => encodeItem first (fst v) ++ encodeItem second (snd v))
    (fun strict bytes =>
       let* (a, rest) := decodeItem first strict bytes in
       let* (b, rest') := decodeItem second strict rest in
       Success ((a, b), rest'))
    (fun v => expressible first (fst v) /\ expressible second (snd v)).

(** The layout of a record, given by the layout of the tuple of its
    fields. *)
Definition record {A B} (build : A -> B) (fields : B -> A) (c : Codec A)
  : Codec B :=
  mkCodec
    (fun v => encodeItem c (fields v))
    (fun strict bytes =>
       let* (a, rest) := decodeItem c strict bytes in
       Success (build a, rest))
    (fun v => expressible c (fields v)).

Infix "|>" := followedBy (at level 60, right associativity).

(** *** The data model of section 3 *)

(** Address: a 32-byte identifier. *)
Definition Address : Type := PublicKey.

Definition address : Codec Address :=
  record mkPublicKey toBytes (fixedBytes 32).

(** The three counts of the header, one byte each. *)
Record MessageHeader : Type := mkHeader {
  signerCount : byte;
  readonlySignerCount : byte;
  readonlyNonSignerCount : byte;
}.

Definition header : Codec MessageHeader :=
  record (fun '(s, (rs, rn)) => mkHeader s rs rn)
    (fun h => (signerCount h, (readonlySignerCount h, readonlyNonSignerCount h)))
    (u8 |> u8 |> u8).

Record CompiledInstruction : Type := mkInstruction {
  programIdIndex : byte;
  accountIndexes : list byte;
  data : list byte;
}.

(** [programIdIndex(1) | compactArray(accountIndexes, 1 byte each) |
    compactArray(data, raw bytes)] *)
Definition instruction : Codec CompiledInstruction :=
  record (fun '(p, (a, d)) => mkInstruction p a d)
    (fun i => (programIdIndex i, (accountIndexes i, data i)))
    (u8 |> compactArray u8 |> compactArray u8).

Record AddressTableLookup : Type := mkLookup {
  tableKey : Address;
  writableIndexes : list byte;
  readonlyIndexes : list byte;
}.

(** [tableKey(32 bytes) | compactArray(writableIndexes) |
    compactArray(readonlyIndexes)] *)
Definition lookup : Codec AddressTableLookup :=
  record (fun '(k, (w, r)) => mkLookup k w r)
    (fun l => (tableKey l, (writableIndexes l, readonlyIndexes l)))
    (address |> compactArray u8 |> compactArray u8).

(** The fields both formats share. *)
Record MessageBody : Type := mkBody {
  messageHeader : MessageHeader;
  staticAccountKeys : list Address;
  recentBlockhash : list byte;
  compiledInstructions : list CompiledInstruction;
}.

(** [header(3 bytes) | compactArray(staticAccountKeys, 32 bytes each) |
    recentBlockhash(32 bytes) | compactArray(compiledInstructions)] *)
Definition body : Codec MessageBody :=
  record (fun '(h, (k, (b, i))) => mkBody h k b i)
    (fun m => (messageHeader m,
               (staticAccountKeys m, (recentBlockhash m, compiledInstructions m))))
    (header |> compactArray address |> fixedBytes 32 |> compactArray instruction).

(** A compiled message, in one of the two formats. *)
Inductive CompiledMessage : Type :=
  | Legacy (m : MessageBody)
  | V0 (m : MessageBody) (addressTableLookups : list AddressTableLookup).

(** The leading byte of a V0 message: the high bit set, version 0 in
    the low 7 bits. *)
Definition versionMarker : byte := x80.

(** Modelled from the spec: [serialize] of section 4.4.  Legacy has no
    marker byte; V0 has the marker, the shared fields and the lookups. *)
Definition serialize (message : CompiledMessage) : list byte :=
  match message with
  | Legacy m => encodeItem body m
  | V0 m lookups =>
      versionMarker :: encodeItem (body |> compactArray lookup) (m, lookups)
  end.

(** The decoder of a message: the first byte is looked at; with its high
    bit set the low 7 bits are the version, which must be 0, and the
    rest is a V0 message; otherwise the whole input is a legacy
    message. *)
Definition decodeMessage (strict : bool) : decoder CompiledMessage :=
  fun bytes =>
    match bytes with
    | [] => Failure MalformedMessage
    | first :: rest =>
        if 128 <=? byte_to_Z first then
          if byte_to_Z first mod 128 =? 0 then
            let* (v, rest') := decodeItem (body |> compactArray lookup) strict rest in
            Success (V0 (fst v) (snd v), rest')
          else Failure UnsupportedMessageVersion
        else
          let* (m, rest') := decodeItem body strict bytes in
          Success (Legacy m, rest')
    end.

(** Modelled from the spec: [deserialize] of section 4.4. *)
Definition deserialize (bytes : list byte) : outcome CompiledMessage :=
  let* (message, _) := decodeMessage false bytes in
  Success message.

(** A byte sequence is well formed when the strict reading accepts it
    and uses it up: every length prefix is as short as possible and no
    byte is left over. *)
Definition well_formed (bytes : list byte) : Prop :=
  exists message, decodeMessage true bytes = Success (message, []).

(** The messages the wire format can express: every count fits the
    16-bit length prefix, every address and the blockhash have 32
    bytes, and a legacy message has fewer than 128 signers, so that its
    first byte is not taken for a version marker. *)
Definition expressible_message (message : CompiledMessage) : Prop :=
  match message with
  | Legacy m =>
      byte_to_Z (signerCount (messageHeader m)) < 128 /\ expressible body m
  | V0 m lookups => expressible (body |> compactArray lookup) (m, lookups)
  end.

End MessageCodec.

(** What makes a codec lossless: decoding inverts encoding on every
    expressible value, whatever follows it; what the strict reading
    accepts is exactly an encoding, followed by the bytes it leaves; the
    plain reading accepts at least what the strict one does; and an
    encoding is never empty. *)
Record CodecLaws {A} (c : Codec A) : Prop := mkCodecLaws {
  decode_encode :
    forall strict a rest,
      expressible c a ->
      decodeItem c strict (encodeItem c a ++ rest) = Success (a, rest);
  encode_decode :
    forall bytes a rest,
      decodeItem c true bytes = Success (a, rest) ->
      bytes = encodeItem c a ++ rest /\ expressible c a;
  strict_plain :
    forall bytes a rest,
      decodeItem c true bytes = Success (a, rest) ->
      decodeItem c false bytes = Success (a, rest);
  encode_nonempty :
    forall a, expressible c a -> (0 < length (encodeItem c a))%nat;
}.

(** *** Concrete messages *)

Module MessageSamples.
Import MessageCodec.

Definition key (b : byte) : Address := mkPublicKey (replicate 32 b).

Definition blockhash : list byte := replicate 32 x07.

(** A legacy message with the payer as only account and no
    instruction. *)
Definition empty_legacy : CompiledMessage :=
  Legacy (mkBody (mkHeader x01 x00 x00) [key x01] blockhash []).

(** A V0 message with no instruction and no lookup. *)
Definition empty_v0 : CompiledMessage :=
  V0 (mkBody (mkHeader x01 x00 x00) [key x01] blockhash []) [].

(** A V0 message with one instruction and one lookup. *)
Definition transfer_v0 : CompiledMessage :=
  V0 (mkBody (mkHeader x01 x00 x01) [key x01; key x02; key x03] blockhash
        [mkInstruction x02 [x00; x01; x03] [x02; x00; x00; x00; x2a]])
    [mkLookup (key x09) [x04] []].

(** The bytes of [empty_legacy] without its key, with the count of
    keys written in two bytes ([0x80 0x00]) instead of one. *)
Definition padded_count : list byte :=
  [x01; x00; x00] ++ [x80; x00] ++ blockhash ++ [x00].

(** A legacy message with 128 signers: the payer and 127 further
    signing accounts, and no instruction. *)
Definition many_signers : CompiledMessage :=
  Legacy (mkBody (mkHeader x80 x00 x00)
            (map (fun i => key (byte_of_Z (Z.of_nat i))) (List.seq 0 128))
            blockhash []).

End MessageSamples.

(** ** Further account data *)

Module MoreLookupTableSamples.

(** A table deactivated at slot 1000: the layout of
    [LookupTableSamples.table_data] with deactivation slot
    [e8 03 00 00 00 00 00 00]. *)
Definition deactivated_table : Uint8Array :=
  LookupTableSamples.table_data [xe8; x03; x00; x00; x00; x00; x00; x00] x01.

(** The 32 bytes of one more address. *)
Definition one_more_address : Uint8Array := replicate 32 x33.

End MoreLookupTableSamples.

(** ** [test/mocks/rpc-http.ts]: unique signatures and blockhashes *)

Module RpcHttpMocks.

(** [BN.prototype.toArray(undefined, length)] of [bn.js]: the [length]
    bytes of the number, most significant first, padded with zero bytes
    on the left. *)
Fixpoint BN_toArray (n : Z) (length : nat) : list byte :=
  match length with
  | O => []
  | S length' => BN_toArray (n / 256) length' ++ [byte_of_Z n]
  end.

(** The number a big-endian byte string stands for. *)
Definition be_unsigned (bytes : list byte) : Z := le_unsigned (rev bytes).

Section WithBs58.

(** [bs58.encode] is an external library function. *)
Variable bs58_encode : list byte -> string.

(** [bs58.encode(new BN(++uniqueCounter).toArray(undefined, 64))], over
    the store holding [uniqueCounter]: the outcome and the counter after
    the call.  The increment is one on doubles; [new BN(number)] is the
    constructor of [LookupTable.safe_integers]. *)
Definition uniqueSignature (uniqueCounter : Z) : result string * Z :=
  let uniqueCounter := round_to_double (uniqueCounter + 1) in
  (bn <- @LookupTable.BN_of_number LookupTable.safe_integers uniqueCounter ;;
   Ok (bs58_encode (BN_toArray bn 64)),
   uniqueCounter).

(** [bs58.encode(new BN(++uniqueCounter).toArray(undefined, 32))] *)
Definition uniqueBlockhash (uniqueCounter : Z) : result string * Z :=
  let uniqueCounter := round_to_double (uniqueCounter + 1) in
  (bn <- @LookupTable.BN_of_number LookupTable.safe_integers uniqueCounter ;;
   Ok (bs58_encode (BN_toArray bn 32)),
   uniqueCounter).

End WithBs58.
End RpcHttpMocks.

(** ** The curve check of the Ed25519 helpers *)

Module Ed25519.

(** The field of the [gf] values of [tweetnacl]: the integers modulo
    [2^255 - 19].  A [gf] holds 16 limbs of 16 bits, least significant
    first; the operations of [nacl.lowlevel] compute modulo the prime and
    the comparison [neq25519] compares the packed, fully reduced
    values.  A [gf] is modelled by an integer that stands for its class. *)
Definition q : Z := 2 ^ 255 - 19.

(** [gf([l0, l1, ...])] *)
Definition gf (limbs : list Z) : Z :=
  fold_right (fun limb acc => limb + 65536 * acc) 0 limbs.

(** [naclLowLevel.A(o, a, b)], [Z(o, a, b)], [M(o, a, b)] and
    [S(o, a)]: sum, difference, product and square; the result [o] is
    the value returned. *)
Definition nacl_A (a b : Z) : Z := (a + b) mod q.
Definition nacl_Z (a b : Z) : Z := (a - b) mod q.
Definition nacl_M (a b : Z) : Z := (a * b) mod q.
Definition nacl_S (a : Z) : Z := nacl_M a a.

(** [unpack25519(o, n)]: the 32 bytes read as a little-endian number,
    with the top bit cleared ([o[15] &= 0x7fff]). *)
Definition unpack25519 (n : Uint8Array) : Z :=
  le_unsigned (take 32 n) mod 2 ^ 255.

(** [pow2523(o, i)]: [c = i; for (a = 250; a >= 0; a--) { S(c, c);
    if (a !== 1) M(c, c, i); }] *)
Definition pow2523 (i : Z) : Z :=
  fold_left (fun c a => let c := nacl_S c in if (a =? 1)%nat then c else nacl_M c i)
    (rev (List.seq 0 251)) i.

(** [pack25519(o, n)]: the canonical representative. *)
Definition pack25519 (n : Z) : Z := n mod q.

(** [crypto_verify_32(x, xi, y, yi)]: 0 when the 32 bytes are equal,
    -1 otherwise. *)
Definition crypto_verify_32 (x y : Z) : Z := if x =? y then 0 else -1.

(** [function neq25519(a, b)] *)
Definition neq25519 (a b : Z) : Z :=
  let c := pack25519 a in
  let d := pack25519 b in
  crypto_verify_32 c d.

(** A number used as a condition: true unless zero. *)
Definition truthy (n : Z) : bool := negb (n =? 0).

(** [naclLowLevel.D], the constant [d] of the curve. *)
Definition D : Z :=
  gf [0x78a3; 0x1359; 0x4dca; 0x75eb; 0xd8ab; 0x4141; 0x0a4d; 0x0070;
      0xe898; 0x7779; 0x4079; 0x8cc7; 0xfe73; 0x2b6f; 0x6cee; 0x5203].

(** [let gf1 = naclLowLevel.gf([1]);] *)
Definition gf1 : Z := gf [1].

(** [let I = naclLowLevel.gf([...]);] *)
Definition I : Z :=
  gf [0xa0b0; 0x4a0e; 0x1b27; 0xc4ee; 0xe478; 0xad2f; 0x1806; 0x2f43;
      0xd7a7; 0x3dfb; 0x0099; 0x2b4d; 0xdf0b; 0x4fc1; 0x2480; 0x2b83].

(** [export function isOnCurve(p: Uint8Array)], for [p] of 32 bytes.
    The array [r] and the temporaries are written in place in the
    source; each [let] below is one such write. *)
Definition isOnCurve (p : Uint8Array) : bool :=
  let r2 := gf1 in
  let r1 := unpack25519 p in
  let num := nacl_S r1 in
  let den := nacl_M num D in
  let num := nacl_Z num r2 in
  let den := nacl_A r2 den in
  let den2 := nacl_S den in
  let den4 := nacl_S den2 in
  let den6 := nacl_M den4 den2 in
  let t := nacl_M den6 num in
  let t := nacl_M t den in
  let t := pow2523 t in
  let t := nacl_M t num in
  let t := nacl_M t den in
  let t := nacl_M t den in
  let r0 := nacl_M t den in
  let chk := nacl_S r0 in
  let chk := nacl_M chk den in
  let r0 := if truthy (neq25519 chk num) then nacl_M r0 I else r0 in
  let chk := nacl_S r0 in
  let chk := nacl_M chk den in
  if truthy (neq25519 chk num) then false else true.

(** The encoding of the base point: [y = 4/5]. *)
Definition base_point : Uint8Array := x58 :: replicate 31 x66.

End Ed25519.

(** ** [rollup.config.js]: the build configurations *)

Module RollupConfig.
Local Open Scope string_scope.

(** An entry of [config.external]: a regular expression or a package
    name. *)
Inductive External : Type :=
  | Pattern (source : string)
  | Package (id : string).

(** An entry of [config.output]; [plugins] names the output plugins. *)
Record OutputOptions : Type := mkOutput {
  file : string;
  format : string;
  name : option string;
  sourcemap : bool;
  plugins : list string;
}.

(** The parts of the configuration object that [generateConfig] derives
    from its arguments: the options that depend on [browser] and
    [bundle], [external] and [output].  A field that has not been
    assigned is [None]. *)
Record Config : Type := mkConfig {
  input : string;
  preferBuiltins : bool;
  babelHelpers : string;
  babelPlugins : list string;
  env_BROWSER : bool;
  external : option (list External);
  output : option (list OutputOptions);
}.

Definition set_external (config : Config) (value : list External) : Config :=
  mkConfig (input config) (preferBuiltins config) (babelHelpers config)
    (babelPlugins config) (env_BROWSER config) (Some value) (output config).

Definition set_output (config : Config) (value : list OutputOptions) : Config :=
  mkConfig (input config) (preferBuiltins config) (babelHelpers config)
    (babelPlugins config) (env_BROWSER config) (external config) (Some value).

(** The list assigned when [!browser]. *)
Definition external_node : list External :=
  [Pattern "@babel\/runtime"; Package "@exodus/fetch";
   Package "readable-stream"; Package "@exodus/js-sha3";
   Package "@noble/ed25519"; Package "@noble/secp256k1";
   Package "@solana/buffer-layout"; Package "bigint-buffer";
   Package "bn.js"; Package "borsh"; Package "bs58"; Package "buffer";
   Package "crypto-hash"; Package "create-hmac";
   Package "jayson/lib/client/browser"; Package "json-stable-stringify";
   Package "node-fetch"; Package "superstruct"; Package "sha.js";
   Package "tweetnacl"].

(** The list assigned for the browser formats with [format === 'esm']. *)
Definition external_browser_esm : list External :=
  [Pattern "@babel\/runtime"; Package "@exodus/fetch";
   Package "readable-stream"; Package "@exodus/js-sha3";
   Package "@exodus/secp256k1"; Package "@solana/buffer-layout";
   Package "bn.js"; Package "borsh"; Package "bs58"; Package "buffer";
   Package "crypto-hash"; Package "create-hmac"; Package "http";
   Package "https"; Package "jayson/lib/client/browser";
   Package "json-stable-stringify"; Package "superstruct";
   Package "sha.js"; Package "tweetnacl"].

(** The list assigned in the [default] case of the browser formats. *)
Definition external_browser_default : list External :=
  [Pattern "@babel\/runtime"; Package "@exodus/js-sha3";
   Package "readable-stream"; Package "@solana/buffer-layout";
   Package "@noble/secp256k1"; Package "bigint-buffer";
   Package "create-hmac"; Package "bn.js"; Package "borsh"; Package "bs58";
   Package "buffer"; Package "crypto-hash"; Package "http"; Package "https";
   Package "jayson/lib/client/browser"; Package "json-stable-stringify";
   Package "node-fetch"; Package "react-native-url-polyfill";
   Package "superstruct"; Package "sha.js"; Package "tweetnacl"].

(** [[a, b].filter(Boolean)] on entries that are an object or [null]. *)
Definition filter_Boolean {A} (entries : list (option A)) : list A :=
  omap (fun entry => entry) entries.

(** [function generateConfig(configType, format)]; [format] is [None]
    when the argument is left out.  The cases of the two [switch]
    statements are tried in order with [===]. *)
Definition generateConfig (configType : string) (format_ : option string)
  : result Config :=
  let browser :=
    String.eqb configType "browser" || String.eqb configType "react-native" in
  let bundle :=
    match format_ with Some f => String.eqb f "iife" | None => false end in
  let config :=
    mkConfig "src/index.ts" (negb browser)
      (if bundle then "bundled" else "runtime")
      (if bundle then [] else ["@babel/plugin-transform-runtime"])
      browser None None in
  let config :=
    if negb browser then set_external config external_node else config in
  let format_is (f : string) :=
    match format_ with Some f' => String.eqb f' f | None => false end in
  if String.eqb configType "browser" || String.eqb configType "react-native"
  then
    if format_is "esm" then
      let config :=
        set_output config
          [mkOutput "lib/index.browser.esm.js" "es" None false []] in
      Ok (set_external config external_browser_esm)
    else if format_is "iife" then
      let config :=
        set_external config
          [Package "http"; Package "https"; Package "node-fetch"] in
      Ok (set_output config
            [mkOutput "lib/index.iife.js" "iife" (Some "solanaWeb3") true [];
             mkOutput "lib/index.iife.min.js" "iife" (Some "solanaWeb3") true
               ["terser"]])
    else
      let config :=
        set_output config
          (filter_Boolean
             [Some (mkOutput
                      (String.append "lib/index."
                         (String.append
                            (if String.eqb configType "react-native"
                             then "native" else "browser.cjs")
                            ".js"))
                      "cjs" None true []);
              if String.eqb configType "browser"
              then Some (mkOutput "lib/index.browser.esm.js" "es" None true [])
              else None]) in
      Ok (set_external config external_browser_default)
  else if String.eqb configType "node" then
    Ok (set_output config [mkOutput "lib/index.cjs.js" "cjs" None false []])
  else Throw (Error (String.append "Unknown configType: " configType)).

(** The packages every list of dependencies kept out of a bundle has in
    common. *)
Definition runtime_dependencies : list string :=
  ["readable-stream"; "@exodus/js-sha3"; "@solana/buffer-layout"; "bn.js";
   "borsh"; "bs58"; "buffer"; "crypto-hash"; "create-hmac";
   "jayson/lib/client/browser"; "json-stable-stringify"; "superstruct";
   "sha.js"; "tweetnacl"].

End RollupConfig.
(** * Theorems *)

(** ** Loader *)

Section LoaderFacts.
Import Loader.

Lemma ceil_div_spec (a b : Z) :
  0 < b -> b * (ceil_div a b - 1) < a <= b * ceil_div a b.
Proof.
  intros Hb. unfold ceil_div.
  pose proof (Z.div_mod (- a) b ltac:(lia)) as E.
  pose proof (Z.mod_pos_bound (- a) b Hb) as B.
  nia.
Qed.

Lemma ceil_div_unique (a b c : Z) :
  0 < b -> b * (c - 1) < a <= b * c -> ceil_div a b = c.
Proof.
  intros Hb Hc. pose proof (ceil_div_spec a b Hb). nia.
Qed.



Lemma ceil_div_le (a b : Z) : 0 < b -> 0 <= a -> ceil_div a b <= a.
Proof.
  intros Hb Ha. pose proof (ceil_div_spec a b Hb). nia.
Qed.

(** *** Rounding *)

Lemma round_half_even_le (n d N : Z) :
  0 < d -> n <= N * d -> round_half_even n d <= N.
Proof.
  intros Hd Hn. unfold round_half_even.
  pose proof (Z.div_mod n d ltac:(lia)) as E.
  pose proof (Z.mod_pos_bound n d Hd) as B.
  destruct (Z.ltb_spec (2 * (n mod d)) d); [nia|].
  assert (n / d < N) by nia.
  repeat case_match; lia.
Qed.

Lemma round_half_even_gt (n d N : Z) :
  0 < d -> d < 2 * (n - N * d) -> N + 1 <= round_half_even n d.
Proof.
  intros Hd Hn. unfold round_half_even.
  pose proof (Z.div_mod n d ltac:(lia)) as E.
  pose proof (Z.mod_pos_bound n d Hd) as B.
  assert (N <= n / d) by nia.
  destruct (Z.ltb_spec (2 * (n mod d)) d); [nia|].
  destruct (Z.ltb_spec d (2 * (n mod d))); [lia|].
  assert (N < n / d) by nia.
  case_match; lia.
Qed.

Lemma round_to_double_upto (z : Z) : z <= 2 ^ 53 -> round_to_double z = z.
Proof.
  intros Hz. destruct (Z.eq_dec z (2 ^ 53)) as [->|]; [reflexivity|].
  unfold round_to_double. destruct (Z.ltb_spec z (2 ^ 53)); [reflexivity|lia].
Qed.

Lemma quotient_exponent_le (a b : Z) :
  quotient_exponent a b <= Z.log2 a - Z.log2 b.
Proof. unfold quotient_exponent. case_match; lia. Qed.

(** The rounded quotient of a safe integer by a positive integer has
    the ceiling of the exact quotient: the rounding error is below
    [1 / b], the least distance of a quotient that is not an integer
    from an integer. *)
Lemma Math_ceil_Number_div_safe (a b : Z) :
  0 <= a < 2 ^ 53 -> 0 < b ->
  Math_ceil (Number_div a b) = ceil_div a b.
Proof.
  intros Ha Hb. unfold Number_div.
  destruct (Z.eqb_spec a 0) as [->|Hne]; [reflexivity|].
  pose proof (quotient_exponent_le a b) as He.
  assert (Hla : Z.log2 a < 53) by (apply Z.log2_lt_pow2; lia).
  pose proof (Z.log2_nonneg b) as Hlb.
  pose proof (proj2 (Z.log2_spec b Hb)) as Hb2.
  set (e := quotient_exponent a b) in *.
  destruct (Z.leb_spec e 52); [|lia].
  set (s := 52 - e).
  assert (Hs : 0 <= s) by (unfold s; lia).
  assert (Hpow : 0 < 2 ^ s) by (apply Z.pow_pos_nonneg; lia).
  assert (Hbs : b < 2 * 2 ^ s).
  { rewrite <- Z.pow_succ_r by done.
    eapply Z.lt_le_trans; [exact Hb2|].
    apply Z.pow_le_mono_r; unfold s; lia. }
  pose proof (ceil_div_spec a b Hb) as Hc.
  set (c := ceil_div a b) in *.
  assert (Hm : 2 ^ s * (c - 1) < round_half_even (a * 2 ^ s) b <= 2 ^ s * c).
  { split.
    - pose proof (round_half_even_gt (a * 2 ^ s) b (2 ^ s * (c - 1)) Hb) as G.
      assert (b < 2 * (a * 2 ^ s - 2 ^ s * (c - 1) * b)); [|lia].
      replace (a * 2 ^ s - 2 ^ s * (c - 1) * b)
        with (2 ^ s * (a - b * (c - 1))) by ring.
      nia.
    - apply round_half_even_le; [done|]. nia. }
  unfold Math_ceil. cbn [exponent significand].
  replace (e - 52) with (- s) by (unfold s; lia).
  clearbody s c. destruct (Z.leb_spec 0 (- s)).
  - assert (s = 0) as -> by lia.
    change (- 0) with 0. change (2 ^ 0) with 1 in *. lia.
  - rewrite Z.opp_involutive.
    apply (ceil_div_unique _ _ _ Hpow). exact Hm.
Qed.

(** For a data length that leaves the two sums below [2^53], the method
    computes exactly. *)
Lemma getMinNumSignatures_safe (PACKET_DATA_SIZE dataLength : Z) :
  300 < PACKET_DATA_SIZE ->
  0 <= dataLength < 2 ^ 53 - 1 ->
  getMinNumSignatures PACKET_DATA_SIZE dataLength
  = 2 * (ceil_div dataLength (chunkSize PACKET_DATA_SIZE) + 2).
Proof.
  intros HP Hd.
  assert (Hc : 0 < chunkSize PACKET_DATA_SIZE)
    by (unfold chunkSize, CHUNK_SIZE; lia).
  unfold getMinNumSignatures.
  rewrite Math_ceil_Number_div_safe by lia.
  pose proof (ceil_div_le dataLength _ Hc ltac:(lia)).
  rewrite !round_to_double_upto by (rewrite ?round_to_double_upto; lia).
  lia.
Qed.

(** C3: [Loader.chunkSize] is the packet size ceiling minus a fixed
    headroom of 300 bytes, whatever the packet size ceiling is: the
    headroom is a constant, not a function of any transaction. *)
Theorem chunkSize_fixed_headroom (PACKET_DATA_SIZE : Z) :
  chunkSize PACKET_DATA_SIZE = PACKET_DATA_SIZE - 300
  /\ PACKET_DATA_SIZE - chunkSize PACKET_DATA_SIZE = 300.
Proof. unfold chunkSize, CHUNK_SIZE. lia. Qed.




End LoaderFacts.

(** ** makeWebsocketUrl *)

Section WebsocketUrlFacts.
Import WebsocketUrl.

Lemma prefix_string_drop (p s : string) :
  String.prefix p s = true ->
  s = String.append p (string_drop (String.length p) s).
Proof.
  revert s. induction p as [|c p IH]; intros s H; [reflexivity|].
  destruct s as [|c' s]; [discriminate|]. cbn in H |- *.
  destruct (Ascii.ascii_dec c c') as [->|]; [|discriminate].
  f_equal. by apply IH.
Qed.

Lemma prefix_append (p rest : string) :
  String.prefix p (String.append p rest) = true.
Proof.
  induction p as [|c p IH]; cbn; [by destruct rest|].
  by destruct (Ascii.ascii_dec c c).
Qed.

Lemma startsWith_iff (s p : string) :
  startsWith s p = true <-> exists rest, s = String.append p rest.
Proof.
  unfold startsWith. split.
  - intros H. eexists. by apply prefix_string_drop.
  - intros [rest ->]. apply prefix_append.
Qed.

(** C8: [makeWebsocketUrl endpoint] throws exactly when [endpoint] does
    not start with "https://"; an endpoint "https://" ++ rest is mapped
    to "wss://" ++ rest, that is the leading "https:" becomes "wss:" and
    all later characters stay. *)
Theorem makeWebsocketUrl_spec (endpoint : string) :
  (is_Throw (makeWebsocketUrl endpoint)
     <-> ~ exists rest, endpoint = String.append "https://" rest)
  /\ (forall tail, endpoint = String.append "https:" tail ->
        startsWith endpoint "https://" = true ->
        makeWebsocketUrl endpoint = Ok (String.append "wss:" tail)).
Proof.
  split.
  - rewrite <- startsWith_iff. unfold makeWebsocketUrl.
    destruct (startsWith endpoint "https://"); cbn.
    + split; [intros [e He]; discriminate | intros H; by destruct H].
    + split; [intros _ H; discriminate | intros _; by eexists].
  - intros tail -> H. unfold makeWebsocketUrl. rewrite H. cbn [negb].
    f_equal. unfold replace_leading_https.
    rewrite (prefix_append "https:" tail). reflexivity.
Qed.

End WebsocketUrlFacts.

(** ** Lookup-table account data *)

Section LookupTableFacts.
Import BufferLayout LookupTable LookupTableSpec.

Lemma readUIntLE_in_bounds (b : Uint8Array) (offset : Z) (n : nat) :
  0 <= offset -> offset + Z.of_nat n <= Z.of_nat (length b) ->
  readUIntLE b offset n = Ok (uint_at b (Z.to_nat offset) n).
Proof.
  intros H0 H1. unfold readUIntLE.
  destruct (Z.leb_spec 0 offset); [|lia].
  destruct (Z.leb_spec (offset + Z.of_nat n) (Z.of_nat (length b))); [|lia].
  reflexivity.
Qed.

Lemma seq_loop_publicKey (n : nat) (b : Uint8Array) (offset : Z) :
  seq_loop Layout_publicKey n b offset = Ok (blobs n b offset).
Proof.
  revert offset. induction n as [|n IH]; intros offset; [reflexivity|].
  cbn [seq_loop blobs]. cbn [decode span Layout_publicKey blob result_bind].
  rewrite IH. reflexivity.
Qed.

Lemma blobs_map (n : nat) (b : Uint8Array) (offset : Z) :
  blobs n b offset
  = map (fun i : nat => slice b (offset + 32 * Z.of_nat i)
                          (offset + 32 * Z.of_nat i + 32)) (List.seq 0 n).
Proof.
  revert offset. induction n as [|n IH]; intros offset; [reflexivity|].
  cbn [blobs List.seq map]. f_equal.
  - f_equal; lia.
  - rewrite IH, <- seq_shift, map_map. apply map_ext. intros i.
    f_equal; lia.
Qed.

Lemma map_result_PublicKey_new (l : list Uint8Array) :
  Forall (fun v => length v = 32%nat) l ->
  map_result PublicKey_new l = Ok (map mkPublicKey l).
Proof.
  induction 1 as [|v l Hv _ IH]; [reflexivity|].
  cbn [map_result map]. unfold PublicKey_new at 1.
  rewrite decide_True by done. cbn [result_bind]. rewrite IH. reflexivity.
Qed.

Lemma layout_decode_meta (data : Uint8Array) :
  (22 <= length data)%nat ->
  decode (layout LookupTableMetaLayout) data 0
  = Ok (mkMeta (uint_at data 0 4) (nu64_at data 4) (nu64_at data 12)
          (uint_at data 20 1)
          (blobs (Z.to_nat (uint_at data 21 1)) data 22)).
Proof.
  intros Hlen. unfold nu64_at.
  cbn [layout LookupTableMetaLayout LookupTableMeta_struct decode span
       u8 u32 nu64 seq seq_decode offset].
  repeat (rewrite readUIntLE_in_bounds by lia; cbn [result_bind]).
  unfold seq_decode. cbn [decode offset u8].
  rewrite readUIntLE_in_bounds by lia. cbn [result_bind].
  rewrite seq_loop_publicKey. reflexivity.
Qed.

(** On data that holds the whole metadata, [decodeData] returns the
    decoded fields when the type tag is 1 and throws otherwise. *)
Lemma decodeData_meta (data : Uint8Array) :
  (22 <= length data)%nat ->
  decodeData LookupTableMetaLayout data
  = if uint_at data 0 4 =? 1
    then Ok (mkMeta (uint_at data 0 4) (nu64_at data 4) (nu64_at data 12)
               (uint_at data 20 1)
               (blobs (Z.to_nat (uint_at data 21 1)) data 22))
    else Throw (Error (String.append
                         "invalid account data; account type mismatch "
                         (String.append (number_toString (uint_at data 0 4))
                            " != 1"))).
Proof.
  intros Hlen. unfold decodeData. rewrite layout_decode_meta by done.
  reflexivity.
Qed.

Lemma le_unsigned_nonneg (bs : list byte) : 0 <= le_unsigned bs.
Proof.
  induction bs as [|b bs IH]; cbn [le_unsigned]; [lia|].
  unfold byte_to_Z. lia.
Qed.

Lemma slice_take_drop (b : Uint8Array) (start : nat) (n : nat) :
  slice b (Z.of_nat start) (Z.of_nat start + Z.of_nat n)
  = take n (drop start b).
Proof.
  unfold slice. f_equal; [lia|]. f_equal. lia.
Qed.

Lemma slice_to_end (b : Uint8Array) (start : nat) :
  slice b (Z.of_nat start) (Z.of_nat (length b)) = drop start b.
Proof.
  unfold slice. rewrite Nat2Z.id. apply take_ge. rewrite length_drop. lia.
Qed.

Lemma authority_new (data : Uint8Array) :
  (56 <= length data)%nat ->
  match blobs (Z.to_nat (uint_at data 21 1)) data 22 with
  | [] => Ok None
  | a :: _ => pk <- PublicKey_new a ;; Ok (Some pk)
  end = Ok (authority_at data).
Proof.
  intros Hlen. unfold authority_at.
  pose proof (le_unsigned_nonneg (take 1 (drop 21 data))) as Hm.
  fold (uint_at data 21 1) in Hm.
  destruct (decide (uint_at data 21 1 = 0)) as [->|Hne]; [reflexivity|].
  destruct (Z.to_nat (uint_at data 21 1)) as [|k] eqn:Ek; [lia|].
  cbn [blobs]. change (slice data 22 (22 + 32)) with (take 32 (drop 22 data)).
  unfold PublicKey_new. rewrite decide_True; [reflexivity|].
  rewrite length_take, length_drop. lia.
Qed.

Lemma addresses_new (data : Uint8Array) (n : nat) :
  (56 + 32 * n <= length data)%nat ->
  map_result PublicKey_new
    (blobs n (slice data LOOKUP_TABLE_META_SIZE (Z.of_nat (length data))) 0)
  = Ok (map (address_at data) (List.seq 0 n)).
Proof.
  intros Hlen. change LOOKUP_TABLE_META_SIZE with (Z.of_nat 56).
  rewrite slice_to_end, blobs_map, map_result_PublicKey_new.
  - rewrite map_map. f_equal. apply map_ext_in. intros i Hi.
    unfold address_at. f_equal.
    change (0 + 32 * Z.of_nat i) with (32 * Z.of_nat i).
    replace (32 * Z.of_nat i) with (Z.of_nat (32 * i)) by lia.
    rewrite (slice_take_drop _ (32 * i) 32).
    rewrite drop_drop. reflexivity.
  - apply Forall_forall. intros v Hv.
    apply list_elem_of_In, in_map_iff in Hv as (i & <- & Hi).
    apply in_seq in Hi.
    change (0 + 32 * Z.of_nat i) with (32 * Z.of_nat i).
    replace (32 * Z.of_nat i) with (Z.of_nat (32 * i)) by lia.
    rewrite (slice_take_drop _ (32 * i) 32).
    rewrite length_take, !length_drop. lia.
Qed.

Lemma valid_length_Z (data : Uint8Array) :
  valid_length data
  <-> 0 <= Z.of_nat (length data) - LOOKUP_TABLE_META_SIZE
      /\ Z.rem (Z.of_nat (length data) - LOOKUP_TABLE_META_SIZE) 32 = 0.
Proof.
  unfold valid_length, LOOKUP_TABLE_META_SIZE. split.
  - intros [Hlen Hmod]. split; [lia|].
    rewrite Z.rem_mod_nonneg by lia.
    replace (Z.of_nat (length data) - 56) with (Z.of_nat (length data - 56)) by lia.
    rewrite <- (Nat2Z.inj_mod _ 32), Hmod. reflexivity.
  - intros [Hlen Hrem]. split; [lia|].
    rewrite Z.rem_mod_nonneg in Hrem by lia.
    replace (Z.of_nat (length data) - 56) with (Z.of_nat (length data - 56)) in Hrem by lia.
    rewrite <- (Nat2Z.inj_mod _ 32) in Hrem. lia.
Qed.

Lemma num_addresses_Z (data : Uint8Array) :
  (56 <= length data)%nat ->
  Z.to_nat ((Z.of_nat (length data) - LOOKUP_TABLE_META_SIZE) / 32)
  = ((length data - 56) / 32)%nat.
Proof.
  intros Hlen. unfold LOOKUP_TABLE_META_SIZE.
  replace (Z.of_nat (length data) - 56) with (Z.of_nat (length data - 56)) by lia.
  rewrite <- (Nat2Z.inj_div _ 32). apply Nat2Z.id.
Qed.

Lemma M_map_lift {A B} (f : A -> result B) (l : list A) (buf : Uint8Array) :
  M_map (fun x => M_lift (f x)) l buf = (map_result f l, buf).
Proof.
  induction l as [|x l IH]; [reflexivity|].
  cbn [M_map map_result]. unfold M_bind, M_lift at 1.
  destruct (f x) as [y|e]; [|reflexivity].
  rewrite IH. cbn [result_bind].
  destruct (map_result f l); reflexivity.
Qed.

(** What a call of [deserialize] does, step by step: the store is
    handed on from each step to the next as it was. *)
Lemma deserialize_steps (data : Uint8Array) :
  deserialize data
  = (meta <- decodeData LookupTableMetaLayout data ;;
     _ <- assert (0 <=? Z.of_nat (length data) - LOOKUP_TABLE_META_SIZE)
            "lookup table is invalid" ;;
     _ <- assert (Z.rem (Z.of_nat (length data) - LOOKUP_TABLE_META_SIZE) 32
                  =? 0) "lookup table is invalid" ;;
     addresses <-
       decode (seq Layout_publicKey
                 (Fixed ((Z.of_nat (length data) - LOOKUP_TABLE_META_SIZE)
                         / 32)))
         (slice data LOOKUP_TABLE_META_SIZE (Z.of_nat (length data))) 0 ;;
     authority <- match meta_authority meta with
                  | [] => Ok None
                  | a :: _ => pk <- PublicKey_new a ;; Ok (Some pk)
                  end ;;
     addresses <- map_result PublicKey_new addresses ;;
     Ok (mkState (meta_deactivationSlot meta) (meta_lastExtendedSlot meta)
           (lastExtendedStartIndex meta) authority addresses),
     data).
Proof.
  unfold deserialize, deserialize_with.
  unfold M_bind at 1, M_read at 1.
  destruct (decodeData LookupTableMetaLayout data) as [meta|e];
    [|reflexivity].
  cbn [result_bind]. unfold M_bind at 1, M_read at 1.
  unfold M_bind at 1, M_lift at 1.
  destruct (assert _ _) as [[]|e]; [|reflexivity].
  cbn [result_bind]. unfold M_bind at 1, M_lift at 1.
  destruct (assert _ _) as [[]|e]; [|reflexivity].
  cbn [result_bind]. unfold M_bind at 1, M_read at 1.
  unfold M_bind at 1, M_lift at 1.
  destruct (decode _ _ _) as [addresses|e]; [|reflexivity].
  cbn [result_bind]. unfold M_bind at 1.
  destruct (meta_authority meta) as [|a rest].
  - unfold M_ret at 1. cbn [result_bind]. unfold M_bind at 1.
    rewrite M_map_lift.
    destruct (map_result PublicKey_new addresses); reflexivity.
  - unfold M_bind at 1, M_lift at 1.
    destruct (PublicKey_new a) as [pk|e]; [|reflexivity].
    unfold M_ret at 1. cbn [result_bind]. unfold M_bind at 1.
    rewrite M_map_lift.
    destruct (map_result PublicKey_new addresses); reflexivity.
Qed.

(** On account data of a valid length with type tag 1 the call returns
    the state the layout describes and leaves the data as it was. *)
Lemma deserialize_valid (data : Uint8Array) :
  accepted data -> deserialize data = (Ok (decoded_state data), data).
Proof.
  intros [Hvalid Htag]. pose proof Hvalid as [Hlen Hmod].
  apply valid_length_Z in Hvalid as [H0 Hrem].
  rewrite deserialize_steps, decodeData_meta by lia.
  rewrite Htag. cbn [Z.eqb Pos.eqb result_bind].
  unfold assert.
  destruct (Z.leb_spec 0 (Z.of_nat (length data) - LOOKUP_TABLE_META_SIZE)); [|lia].
  rewrite Hrem. cbn [Z.eqb].
  cbn [decode seq seq_decode result_bind].
  rewrite seq_loop_publicKey, num_addresses_Z by done.
  cbn [meta_authority meta_deactivationSlot meta_lastExtendedSlot
       lastExtendedStartIndex].
  rewrite authority_new by done. cbn [result_bind].
  rewrite addresses_new; [reflexivity|].
  pose proof (Nat.div_mod_eq (length data - 56) 32). lia.
Qed.

Lemma decodeData_Throw {A} `{IAccountStateData A}
    (type : AccountType A) (data : Uint8Array) (e : exn) :
  decodeData type data = Throw e -> failure_report e.
Proof.
  unfold decodeData, failure_report. intros He.
  destruct (decode (layout type) data 0) as [decoded|err].
  - cbn [result_bind] in He.
    destruct (get_typeIndex decoded =? index type); [discriminate|].
    injection He as <-. right; right. by eexists.
  - injection He as <-. right; left. by eexists.
Qed.

(** On any other account data the call throws an error that carries a
    message, and leaves the data as it was. *)
Lemma deserialize_invalid (data : Uint8Array) :
  ~ accepted data ->
  exists e, deserialize data = (Throw e, data) /\ failure_report e.
Proof.
  intros Hinvalid. unfold accepted in Hinvalid.
  rewrite valid_length_Z in Hinvalid.
  rewrite deserialize_steps.
  destruct (decodeData LookupTableMetaLayout data) as [meta|e] eqn:Hmeta.
  2:{ exists e. split; [reflexivity|]. by apply decodeData_Throw in Hmeta. }
  cbn [result_bind]. unfold assert.
  destruct (Z.leb_spec 0 (Z.of_nat (length data) - LOOKUP_TABLE_META_SIZE));
    [|eexists; split; [reflexivity | by left]].
  destruct (Z.eqb_spec
              (Z.rem (Z.of_nat (length data) - LOOKUP_TABLE_META_SIZE) 32) 0);
    [|eexists; split; [reflexivity | by left]].
  exfalso. apply Hinvalid. split; [done|].
  rewrite decodeData_meta in Hmeta by (unfold LOOKUP_TABLE_META_SIZE in *; lia).
  destruct (Z.eqb_spec (uint_at data 0 4) 1); [done | discriminate].
Qed.

Lemma valid_length_dec (data : Uint8Array) :
  valid_length data \/ ~ valid_length data.
Proof.
  unfold valid_length.
  destruct (decide (56 <= length data)%nat);
    destruct (decide ((length data - 56) mod 32 = 0)%nat); tauto.
Qed.

Lemma accepted_dec (data : Uint8Array) : accepted data \/ ~ accepted data.
Proof.
  unfold accepted. destruct (valid_length_dec data);
    destruct (decide (uint_at data 0 4 = 1)); tauto.
Qed.

Lemma deserialize_outcome_accepted
    (data : Uint8Array) (s : AddressLookupTableState) :
  deserialize_outcome data = Ok s ->
  accepted data /\ s = decoded_state data.
Proof.
  unfold deserialize_outcome. intros H.
  destruct (accepted_dec data) as [Hv|Hv].
  - rewrite (deserialize_valid _ Hv) in H. cbn in H. split; congruence.
  - destruct (deserialize_invalid _ Hv) as (e & He & _).
    rewrite He in H. discriminate.
Qed.

Lemma deserialize_outcome_Ok (data : Uint8Array) (s : AddressLookupTableState) :
  deserialize_outcome data = Ok s ->
  valid_length data /\ s = decoded_state data.
Proof.
  intros H. apply deserialize_outcome_accepted in H as [[Hv _] ->]. done.
Qed.

Lemma is_Ok_deserialize_outcome (data : Uint8Array) :
  is_Ok (deserialize_outcome data) <-> accepted data.
Proof.
  split.
  - intros [s Hs]. by apply deserialize_outcome_accepted in Hs as [? _].
  - intros Hv. exists (decoded_state data).
    unfold deserialize_outcome. by rewrite deserialize_valid.
Qed.

(** The data of an account that has not been initialized have a valid
    length, and [deserialize] refuses them for their type tag: the two
    length conditions alone do not decide whether the call succeeds. *)
Lemma uninitialized_table_rejected :
  ((56 <= length LookupTableSamples.uninitialized_table)%nat
   /\ ((length LookupTableSamples.uninitialized_table - 56) mod 32 = 0)%nat)
  /\ deserialize_outcome LookupTableSamples.uninitialized_table
     = Throw (Error "invalid account data; account type mismatch 0 != 1")
  /\ ~ (is_Ok (deserialize_outcome LookupTableSamples.uninitialized_table)
        <-> (56 <= length LookupTableSamples.uninitialized_table)%nat
            /\ ((length LookupTableSamples.uninitialized_table - 56) mod 32
                = 0)%nat).
Proof.
  assert (Hlen : (56 <= length LookupTableSamples.uninitialized_table)%nat
                 /\ ((length LookupTableSamples.uninitialized_table - 56)
                       mod 32 = 0)%nat)
    by (split; [vm_compute; lia | reflexivity]).
  split; [exact Hlen|]. split; [reflexivity|].
  intros [_ Hok]. destruct (Hok Hlen) as [s Hs]. discriminate Hs.
Qed.

(** C2: [deserialize] succeeds exactly when the account data has at
    least 56 bytes, the bytes after the first 56 are a whole number of
    32-byte groups and the type tag (the 32-bit little-endian integer
    in the first four bytes) is 1, and throws otherwise, in particular
    whenever one of the two length conditions fails; the addresses of
    the returned state are the 32-byte groups, in order. *)
Theorem deserialize_success_iff_lengths_and_tag (accountData : Uint8Array) :
  (is_Ok (deserialize_outcome accountData)
     <-> (56 <= length accountData)%nat
         /\ ((length accountData - 56) mod 32 = 0)%nat
         /\ uint_at accountData 0 4 = 1)
  /\ (is_Throw (deserialize_outcome accountData)
       <-> ~ ((56 <= length accountData)%nat
              /\ ((length accountData - 56) mod 32 = 0)%nat
              /\ uint_at accountData 0 4 = 1))
  /\ (~ ((56 <= length accountData)%nat
         /\ ((length accountData - 56) mod 32 = 0)%nat) ->
       is_Throw (deserialize_outcome accountData))
  /\ (forall s, deserialize_outcome accountData = Ok s ->
        length (addresses s) = ((length accountData - 56) / 32)%nat
        /\ forall i : nat, (i < (length accountData - 56) / 32)%nat ->
             addresses s !! i
             = Some (mkPublicKey (take 32 (drop (56 + 32 * i) accountData)))).
Proof.
  assert (Hok : is_Ok (deserialize_outcome accountData)
                <-> (56 <= length accountData)%nat
                    /\ ((length accountData - 56) mod 32 = 0)%nat
                    /\ uint_at accountData 0 4 = 1).
  { rewrite is_Ok_deserialize_outcome. unfold accepted, valid_length. tauto. }
  assert (Hthrow : is_Throw (deserialize_outcome accountData)
                   <-> ~ ((56 <= length accountData)%nat
                          /\ ((length accountData - 56) mod 32 = 0)%nat
                          /\ uint_at accountData 0 4 = 1)).
  { rewrite <- Hok, is_Ok_not_Throw.
    destruct (deserialize_outcome accountData) as [s|e]; split.
    - intros [e He]. discriminate.
    - intros H. exfalso. apply H. intros [e He]. discriminate.
    - intros _ H. apply H. by exists e.
    - intros _. by exists e. }
  split; [exact Hok|]. split; [exact Hthrow|]. split.
  - intros H. apply Hthrow. tauto.
  - intros s Hs. apply deserialize_outcome_Ok in Hs as [_ ->].
    cbn [addresses decoded_state]. split.
    + by rewrite length_map, length_seq.
    + intros i Hi. rewrite list_lookup_fmap.
      rewrite lookup_seq_lt by done. reflexivity.
Qed.

Lemma decoded_state_populated (data : Uint8Array) :
  valid_length data -> fully_populated data (decoded_state data).
Proof.
  intros [Hlen Hmod]. unfold fully_populated, decoded_state.
  cbn [deactivationSlot lastExtendedSlot lastExtendedSlotStartIndex
       authority addresses].
  repeat apply conj; try reflexivity.
  - intros pk. unfold authority_at. case_decide; [discriminate|].
    intros [= <-]. cbn [toBytes]. rewrite length_take, length_drop. lia.
  - apply Forall_forall. intros pk Hpk.
    apply list_elem_of_In, in_map_iff in Hpk as (i & <- & Hi).
    apply in_seq in Hi. cbn [address_at toBytes].
    pose proof (Nat.div_mod_eq (length data - 56) 32).
    rewrite length_take, length_drop. lia.
Qed.

Lemma marker_byte (data : Uint8Array) (marker : byte) :
  data !! 21%nat = Some marker -> uint_at data 21 1 = byte_to_Z marker.
Proof.
  intros Hm. unfold uint_at. rewrite (drop_S _ _ _ Hm).
  cbn [firstn le_unsigned]. rewrite take_0. cbn [le_unsigned]. lia.
Qed.

(** C6: [deserialize] returns a state for all account data of a valid
    length with type tag 1, and in every state it returns the authority
    is absent exactly when the marker byte (offset 21 of the metadata)
    is zero; otherwise it is the public key made of the 32 bytes after
    the marker. *)
Theorem deserialize_authority_marker (accountData : Uint8Array) :
  (forall s, deserialize_outcome accountData = Ok s ->
     exists marker : byte,
       accountData !! 21%nat = Some marker
       /\ (authority s = None <-> byte_to_Z marker = 0)
       /\ (byte_to_Z marker <> 0 ->
            authority s = Some (mkPublicKey (take 32 (drop 22 accountData)))
            /\ length (take 32 (drop 22 accountData)) = 32%nat))
  /\ ((56 <= length accountData)%nat ->
      ((length accountData - 56) mod 32 = 0)%nat ->
      uint_at accountData 0 4 = 1 ->
      exists s, deserialize_outcome accountData = Ok s).
Proof.
  split.
  - intros s Hs. apply deserialize_outcome_Ok in Hs as [[Hlen _] ->].
    destruct (lookup_lt_is_Some_2 accountData 21) as [marker Hm]; [lia|].
    exists marker. split; [done|].
    cbn [authority decoded_state]. unfold authority_at.
    rewrite (marker_byte _ _ Hm). case_decide as Hz.
    + split; [done | intros Hne; by destruct Hne].
    + split; [split; [discriminate | intros Hz'; by destruct Hz]|].
      intros _. split; [reflexivity|].
      rewrite length_take, length_drop. lia.
  - intros Hlen Hmod Htag. apply is_Ok_deserialize_outcome.
    unfold accepted, valid_length. tauto.
Qed.

Lemma deserialize_authority_marker_witness :
  (exists s,
      deserialize_outcome LookupTableSamples.active_table = Ok s
      /\ LookupTableSamples.active_table !! 21%nat = Some x01
      /\ authority s = Some (mkPublicKey (replicate 32 xaa)))
  /\ (exists s,
        deserialize_outcome LookupTableSamples.frozen_table = Ok s
        /\ LookupTableSamples.frozen_table !! 21%nat = Some x00
        /\ authority s = None).
Proof.
  split.
  - destruct (deserialize_authority_marker LookupTableSamples.active_table)
      as [Hauth Hreturns].
    destruct Hreturns as [s Hs];
      [vm_compute; lia | reflexivity | reflexivity |].
    exists s. split; [exact Hs|]. split; [reflexivity|].
    destruct (Hauth s Hs) as (marker & Hm & _ & Hsome).
    injection Hm as <-. by destruct Hsome as [-> _].
  - destruct (deserialize_authority_marker LookupTableSamples.frozen_table)
      as [Hauth Hreturns].
    destruct Hreturns as [s Hs];
      [vm_compute; lia | reflexivity | reflexivity |].
    exists s. split; [exact Hs|]. split; [reflexivity|].
    destruct (Hauth s Hs) as (marker & Hm & Hnone & _).
    injection Hm as <-. by apply Hnone.
Defined.

(** C7: a call of [deserialize] has one of two outcomes.  On account
    data of a valid length with type tag 1 it returns a state every
    field of which holds the completely decoded value of its part of
    the data.  On all other account data it throws, and then the
    caller receives the exception and nothing else: no state is
    returned, the exception is an [Error] that carries one of three
    messages and no state, and the one object the caller shares with
    the call, [accountData], holds the bytes it held before. *)
Theorem deserialize_all_or_nothing (accountData : Uint8Array) :
  (accepted accountData
   /\ exists s, deserialize accountData = (Ok s, accountData)
                /\ fully_populated accountData s)
  \/ (~ accepted accountData
      /\ exists e, deserialize accountData = (Throw e, accountData)
                   /\ failure_report e).
Proof.
  destruct (accepted_dec accountData) as [Hv|Hv].
  - left. split; [done|]. exists (decoded_state accountData).
    split; [by apply deserialize_valid|].
    apply decoded_state_populated, Hv.
  - right. split; [done|]. by apply deserialize_invalid.
Qed.

(** *** The bytes of [accountData] after the call *)

Lemma preserves_ret {A} (a : A) : preserves (M_ret a).
Proof. intros buf. reflexivity. Qed.

Lemma preserves_read {A} (f : Uint8Array -> result A) : preserves (M_read f).
Proof. intros buf. reflexivity. Qed.

Lemma preserves_lift {A} (r : result A) : preserves (M_lift r).
Proof. intros buf. reflexivity. Qed.

Lemma preserves_bind {A B} (m : M A) (k : A -> M B) :
  preserves m -> (forall a, preserves (k a)) -> preserves (m <~ m ;; k m).
Proof.
  intros Hm Hk buf. unfold M_bind. specialize (Hm buf).
  destruct (m buf) as [[a|e] buf']; cbn [snd] in Hm; subst buf'.
  - apply Hk.
  - reflexivity.
Qed.

Lemma preserves_map {A B} (f : A -> M B) (l : list A) :
  (forall x, preserves (f x)) -> preserves (M_map f l).
Proof.
  intros Hf. induction l as [|x l IH]; cbn [M_map].
  - apply preserves_ret.
  - apply preserves_bind; [apply Hf|]. intros y.
    apply preserves_bind; [apply IH|]. intros ys. apply preserves_ret.
Qed.

(** An assignment to an element does change the bytes. *)
Lemma M_write_changes : ~ preserves (M_write 0 x00).
Proof. intros H. specialize (H [x01]). discriminate H. Qed.

Lemma deserialize_with_preserves
    (call_decodeData : M LookupTableMeta)
    (call_decode_addresses : Z -> Uint8Array -> M (list Uint8Array))
    (call_new_PublicKey : Uint8Array -> M PublicKey) :
  preserves call_decodeData ->
  (forall n sliced, preserves (call_decode_addresses n sliced)) ->
  (forall value, preserves (call_new_PublicKey value)) ->
  preserves (deserialize_with call_decodeData call_decode_addresses
               call_new_PublicKey).
Proof.
  intros Hd Ha Hp. unfold deserialize_with.
  apply preserves_bind; [exact Hd|]. intros meta.
  apply preserves_bind; [apply preserves_read|]. intros len.
  apply preserves_bind; [apply preserves_lift|]. intros _.
  apply preserves_bind; [apply preserves_lift|]. intros _.
  apply preserves_bind; [apply preserves_read|]. intros sliced.
  apply preserves_bind; [apply Ha|]. intros addresses.
  apply preserves_bind.
  - destruct (meta_authority meta) as [|a rest]; [apply preserves_ret|].
    apply preserves_bind; [apply Hp|]. intros pk. apply preserves_ret.
  - intros authority. apply preserves_bind; [by apply preserves_map|].
    intros keys. apply preserves_ret.
Qed.

(** The hypotheses on the calls are needed: were [decodeData] to clear
    the first byte of the data it is handed, the caller of [deserialize]
    would find [accountData] changed. *)
Lemma deserialize_with_writing_callee :
  snd (deserialize_with
         (_ <~ M_write 0 x00 ;; M_read (decodeData LookupTableMetaLayout))
         (fun n sliced =>
            M_lift (decode (seq Layout_publicKey (Fixed n)) sliced 0))
         (fun value => M_lift (PublicKey_new value))
         LookupTableSamples.active_table)
  <> LookupTableSamples.active_table.
Proof. vm_compute. discriminate. Qed.

(** C10: [deserialize] itself assigns to no element of [accountData]:
    whatever [decodeData], the [decode] of the address layout and the
    [PublicKey] constructor do, as long as each of them leaves the
    bytes it is handed as they were, the bytes of [accountData] after
    the call are the bytes before it, whether the call returns or
    throws; with the three calls as they are modelled this holds for
    every [accountData]. *)
Theorem deserialize_preserves_accountData :
  (forall (call_decodeData : M LookupTableMeta)
          (call_decode_addresses : Z -> Uint8Array -> M (list Uint8Array))
          (call_new_PublicKey : Uint8Array -> M PublicKey),
      preserves call_decodeData ->
      (forall n sliced, preserves (call_decode_addresses n sliced)) ->
      (forall value, preserves (call_new_PublicKey value)) ->
      forall accountData,
        snd (deserialize_with call_decodeData call_decode_addresses
               call_new_PublicKey accountData) = accountData)
  /\ (forall accountData, snd (deserialize accountData) = accountData).
Proof.
  split.
  - intros d a p Hd Ha Hp accountData.
    by apply deserialize_with_preserves.
  - intros accountData. apply deserialize_with_preserves.
    + apply preserves_read.
    + intros n sliced. apply preserves_lift.
    + intros value. apply preserves_lift.
Qed.

Lemma deserialize_preserves_accountData_witness :
  (exists s, deserialize LookupTableSamples.active_table
             = (Ok s, LookupTableSamples.active_table))
  /\ (exists e, deserialize LookupTableSamples.uninitialized_table
                = (Throw e, LookupTableSamples.uninitialized_table)).
Proof.
  destruct deserialize_preserves_accountData as [Hwith Hmodelled]. split.
  - pose proof (Hwith (M_read (decodeData LookupTableMetaLayout))
                  (fun n sliced =>
                     M_lift (decode (seq Layout_publicKey (Fixed n)) sliced 0))
                  (fun value => M_lift (PublicKey_new value))
                  (preserves_read _)
                  (fun n sliced => preserves_lift _)
                  (fun value => preserves_lift _)
                  LookupTableSamples.active_table) as Hbuf.
    fold deserialize in Hbuf.
    destruct (deserialize LookupTableSamples.active_table)
      as [[s|e] buf] eqn:E; [|vm_compute in E; discriminate E].
    cbn [snd] in Hbuf. subst buf. by exists s.
  - pose proof (Hmodelled LookupTableSamples.uninitialized_table) as Hbuf.
    destruct (deserialize LookupTableSamples.uninitialized_table)
      as [[s|e] buf] eqn:E; [vm_compute in E; discriminate E|].
    cbn [snd] in Hbuf. subst buf. by exists e.
Defined.

(** *** The deactivation slot as a JavaScript number *)

Lemma round_to_double_even (z : Z) :
  2 ^ 53 <= z -> Z.even (round_to_double z) = true.
Proof.
  intros Hz. unfold round_to_double.
  destruct (Z.ltb_spec z (2 ^ 53)); [lia|].
  assert (He : 0 < Z.log2 z - 52).
  { pose proof (Z.log2_le_mono _ _ Hz) as Hl.
    rewrite Z.log2_pow2 in Hl by lia. lia. }
  assert (Hp : Z.even (2 ^ (Z.log2 z - 52)) = true)
    by (rewrite Z.even_pow by lia; reflexivity).
  repeat case_match; rewrite Z.even_mul, Hp; apply orb_true_r.
Qed.

Lemma round_to_double_not_sentinel (z : Z) :
  0 <= z -> round_to_double z <> 2 ^ 64 - 1.
Proof.
  intros Hz Heq. destruct (Z.lt_ge_cases z (2 ^ 53)) as [Hlt|Hge].
  - unfold round_to_double in Heq.
    destruct (Z.ltb_spec z (2 ^ 53)); lia.
  - apply round_to_double_even in Hge. rewrite Heq in Hge. discriminate.
Qed.

Lemma le_unsigned_app (a b : list byte) :
  le_unsigned (a ++ b) = le_unsigned a + 256 ^ Z.of_nat (length a) * le_unsigned b.
Proof.
  induction a as [|x a IH]; [cbn; lia|].
  cbn [app le_unsigned length]. rewrite IH, Nat2Z.inj_succ, Z.pow_succ_r by lia.
  lia.
Qed.

Lemma nu64_at_uint64 (data : Uint8Array) (o : nat) :
  (o + 8 <= length data)%nat ->
  nu64_at data o = round_to_double (uint_at data o 8).
Proof.
  intros Hlen. unfold nu64_at, roundedInt64, uint_at. f_equal.
  rewrite <- (take_take_drop _ 4 4), le_unsigned_app, drop_drop.
  rewrite length_take, length_drop, Nat.min_l by lia.
  change (256 ^ Z.of_nat 4) with (2 ^ 32). lia.
Qed.

(** No state returned by [deserialize] carries the sentinel: the
    deactivation slot is a double, and [2^64 - 1] is not one. *)
Lemma deserialize_never_sentinel
    (accountData : Uint8Array) (s : AddressLookupTableState) :
  deserialize_outcome accountData = Ok s ->
  deactivationSlot s <> 2 ^ 64 - 1.
Proof.
  intros Hs. apply deserialize_outcome_Ok in Hs as [[Hlen _] ->].
  cbn [deactivationSlot decoded_state]. rewrite nu64_at_uint64 by lia.
  apply round_to_double_not_sentinel, le_unsigned_nonneg.
Qed.

(** A table whose deactivation slot on the ledger is the sentinel is
    read as deactivated at slot [2^64]. *)
Lemma deserialize_sentinel_rounded
    (accountData : Uint8Array) (s : AddressLookupTableState) :
  deserialize_outcome accountData = Ok s ->
  uint_at accountData 4 8 = 2 ^ 64 - 1 ->
  deactivationSlot s = 2 ^ 64.
Proof.
  intros Hs Hslot. apply deserialize_outcome_Ok in Hs as [[Hlen _] ->].
  cbn [deactivationSlot decoded_state]. rewrite nu64_at_uint64 by lia.
  rewrite Hslot. reflexivity.
Qed.

(** C1: [isActive] cannot single out the sentinel.  The active table
    (deactivation slot [2^64 - 1] on the ledger) and a table with
    deactivation slot [2^64 - 2] are both read with the number [2^64]
    as deactivation slot, so [isActive] answers the same for both,
    whatever the big-number library does. *)
Theorem isActive_blind_to_sentinel `{BigNum} (k : PublicKey) :
  exists s_active s_other,
    deserialize_outcome LookupTableSamples.active_table = Ok s_active
    /\ deserialize_outcome LookupTableSamples.other_table = Ok s_other
    /\ uint_at LookupTableSamples.active_table 4 8 = 2 ^ 64 - 1
    /\ uint_at LookupTableSamples.other_table 4 8 = 2 ^ 64 - 2
    /\ deactivationSlot s_active = 2 ^ 64
    /\ isActive (mkAccount k s_active) = isActive (mkAccount k s_other).
Proof.
  do 2 eexists. repeat apply conj; reflexivity.
Qed.

Section BigNumLibraries.
Context `{BigNum}.

(** The number a big number stands for. *)
Variable value : BN -> Z.

(** A conversion that returns, returns the number it was given;
    [eq] compares values; the constant is the sentinel. *)
Hypothesis BN_of_number_value :
  forall n b, BN_of_number n = Ok b -> value b = n.
Hypothesis BN_of_string_U64_MAX :
  forall b, BN_of_string "0xffffffffffffffff" = Ok b -> value b = 2 ^ 64 - 1.
Hypothesis BN_eq_value :
  forall a b, BN_eq a b = true -> value a = value b.

(** With such a library [isActive] never answers [true] for a state
    read by [deserialize]. *)
Lemma isActive_never_true (accountData : Uint8Array)
    (k : PublicKey) (s : AddressLookupTableState) :
  deserialize_outcome accountData = Ok s ->
  isActive (mkAccount k s) <> Ok true.
Proof.
  intros Hs Hact. apply deserialize_never_sentinel in Hs.
  unfold isActive in Hact. cbn [state] in Hact.
  destruct (BN_of_string "0xffffffffffffffff") as [u|] eqn:Eu; [|discriminate].
  destruct (BN_of_number (deactivationSlot s)) as [d|] eqn:Ed; [|discriminate].
  cbn [result_bind] in Hact. injection Hact as Heq.
  apply BN_eq_value in Heq.
  rewrite (BN_of_number_value _ _ Ed), (BN_of_string_U64_MAX u eq_refl) in Heq.
  contradiction.
Qed.

(** [bn.js] refuses numbers from [2^53] on with an assertion: then
    [isActive] throws on every table that is active on the ledger. *)
Hypothesis BN_of_number_unsafe :
  forall n, 2 ^ 53 <= n -> is_Throw (BN_of_number n).

Lemma isActive_throws_on_active (accountData : Uint8Array)
    (k : PublicKey) (s : AddressLookupTableState) :
  deserialize_outcome accountData = Ok s ->
  uint_at accountData 4 8 = 2 ^ 64 - 1 ->
  is_Throw (isActive (mkAccount k s)).
Proof.
  intros Hs Hslot. unfold isActive. cbn [state].
  rewrite (deserialize_sentinel_rounded _ _ Hs Hslot).
  destruct (BN_of_string "0xffffffffffffffff") as [u|e]; [|by exists e].
  destruct (BN_of_number_unsafe (2 ^ 64) ltac:(lia)) as [e ->].
  by exists e.
Qed.

End BigNumLibraries.

(** [safe_integers] refuses the constant of [isActive], which is not a
    decimal numeral: run with it, [isActive] throws on every account. *)
Lemma isActive_safe_integers_throws (this : AddressLookupTableAccount) :
  @isActive safe_integers this = Throw (Error "Invalid character").
Proof. reflexivity. Qed.

(** In particular it throws on the active table. *)
Lemma isActive_active_table_throws (k : PublicKey) :
  exists s,
    deserialize_outcome LookupTableSamples.active_table = Ok s
    /\ @isActive safe_integers (mkAccount k s)
       = Throw (Error "Invalid character").
Proof. eexists. split; reflexivity. Qed.

Lemma isActive_safe_integers_never_true (accountData : Uint8Array)
    (k : PublicKey) (s : AddressLookupTableState) :
  deserialize_outcome accountData = Ok s ->
  @isActive safe_integers (mkAccount k s) <> Ok true.
Proof. intros _. rewrite isActive_safe_integers_throws. discriminate. Qed.

End LookupTableFacts.

(** ** Bytes *)

Lemma byte_to_Z_range (b : byte) : 0 <= byte_to_Z b < 256.
Proof.
  unfold byte_to_Z. pose proof (Byte.to_N_bounded b). lia.
Qed.

Lemma byte_to_of_Z (z : Z) : 0 <= z < 256 -> byte_to_Z (byte_of_Z z) = z.
Proof.
  intros Hz. unfold byte_of_Z, byte_to_Z.
  rewrite Z.mod_small by lia.
  destruct (Byte.of_N (Z.to_N z)) as [b|] eqn:E.
  - apply Byte.to_of_N in E. lia.
  - apply Byte.of_N_None_iff in E. lia.
Qed.

Lemma byte_of_to_Z (b : byte) : byte_of_Z (byte_to_Z b) = b.
Proof.
  unfold byte_of_Z. rewrite Z.mod_small by apply byte_to_Z_range.
  unfold byte_to_Z. rewrite N2Z.id, Byte.of_to_N. reflexivity.
Qed.

(** ** The compact length prefix *)

(** Linear arithmetic with division and remainder by constants. *)
Ltac divlia := Z.div_mod_to_equations; lia.

Section CompactLengthFacts.
Import CompactArrayCodec.

(** The three shapes of an encoded length. *)
Lemma encode_cases (n : Z) :
  0 <= n <= 65535 ->
  (n < 128 /\ encode n = [byte_of_Z n])
  \/ (128 <= n < 16384
      /\ encode n = [byte_of_Z (n mod 128 + 128); byte_of_Z (n / 128)])
  \/ (16384 <= n
      /\ encode n = [byte_of_Z (n mod 128 + 128);
                     byte_of_Z (n / 128 mod 128 + 128);
                     byte_of_Z (n / 128 / 128)]).
Proof.
  intros Hn. unfold encode. cbn [encode_loop].
  destruct (Z.ltb_spec n 128); [by left|]. right.
  destruct (Z.ltb_spec (n / 128) 128) as [H1|H1].
  - left. split; [|reflexivity]. divlia.
  - right. split; [divlia|].
    destruct (Z.ltb_spec (n / 128 / 128) 128) as [H2|H2]; [reflexivity|].
    exfalso.
    assert (n / 128 / 128 <= 3); [|divlia].
    rewrite Z.div_div by divlia. cbn. divlia.
Qed.

Lemma encode_length (n : Z) :
  0 <= n <= 65535 -> (1 <= length (encode n) <= 3)%nat.
Proof.
  intros Hn.
  destruct (encode_cases n Hn) as [[_ ->]|[[_ ->]|[_ ->]]]; cbn; divlia.
Qed.

Lemma decode_prefix_encode (strict : bool) (n : Z) (rest : list byte) :
  0 <= n <= 65535 ->
  decode_prefix strict (encode n ++ rest) = Success (n, rest).
Proof.
  intros Hn. unfold decode_prefix.
  destruct (encode_cases n Hn) as [[H ->]|[[H ->]|[H ->]]];
    cbn [app decode_loop].
  - rewrite byte_to_of_Z by divlia.
    destruct (Z.ltb_spec n 128); [|divlia].
    rewrite andb_false_r. cbn [decoder_bind].
    replace (0 + 1 * n) with n by divlia.
    destruct (Z.leb_spec n 65535); [reflexivity|divlia].
  - rewrite !byte_to_of_Z by divlia.
    destruct (Z.ltb_spec (n mod 128 + 128) 128); [divlia|].
    destruct (Z.ltb_spec (n / 128) 128); [|divlia].
    destruct (Z.eqb_spec (n / 128) 0); [divlia|].
    rewrite andb_false_r. cbn [andb decoder_bind].
    replace (0 + 1 * (n mod 128 + 128 - 128) + 1 * 128 * (n / 128)) with n by divlia.
    destruct (Z.leb_spec n 65535); [reflexivity|divlia].
  - assert (n / 128 / 128 <= 3) by (rewrite Z.div_div by divlia; cbn; divlia).
    rewrite !byte_to_of_Z by divlia.
    destruct (Z.ltb_spec (n mod 128 + 128) 128); [divlia|].
    destruct (Z.ltb_spec (n / 128 mod 128 + 128) 128); [divlia|].
    destruct (Z.ltb_spec (n / 128 / 128) 128); [|divlia].
    destruct (Z.eqb_spec (n / 128 / 128) 0); [divlia|].
    rewrite andb_false_r. cbn [andb decoder_bind].
    replace (0 + 1 * (n mod 128 + 128 - 128)
             + 1 * 128 * (n / 128 mod 128 + 128 - 128)
             + 1 * 128 * 128 * (n / 128 / 128)) with n by divlia.
    destruct (Z.leb_spec n 65535); [reflexivity|divlia].
Qed.

Lemma byte_of_Z_eq (z : Z) (b : byte) : z = byte_to_Z b -> byte_of_Z z = b.
Proof. intros ->. apply byte_of_to_Z. Qed.

Lemma encode_decode_prefix (bytes : list byte) (n : Z) (rest : list byte) :
  decode_prefix true bytes = Success (n, rest) ->
  bytes = encode n ++ rest /\ 0 <= n <= 65535.
Proof.
  unfold decode_prefix. intros H.
  destruct bytes as [|b0 bs]; [discriminate|]. cbn [decode_loop] in H.
  pose proof (byte_to_Z_range b0) as R0.
  destruct (Z.ltb_spec (byte_to_Z b0) 128) as [L0|L0].
  { rewrite andb_false_r in H. cbn [decoder_bind] in H.
    destruct (Z.leb_spec (0 + 1 * byte_to_Z b0) 65535); [|discriminate].
    injection H as <- <-. split; [|lia].
    destruct (encode_cases (0 + 1 * byte_to_Z b0) ltac:(lia))
      as [[_ ->]|[[? _]|[? _]]]; [|lia|lia].
    cbn [app]. f_equal. symmetry. apply byte_of_Z_eq. lia. }
  destruct bs as [|b1 bs]; [discriminate|]. cbn [decode_loop] in H.
  pose proof (byte_to_Z_range b1) as R1.
  destruct (Z.ltb_spec (byte_to_Z b1) 128) as [L1|L1].
  { destruct (Z.eqb_spec (byte_to_Z b1) 0) as [|N1]; [discriminate|].
    cbn [andb decoder_bind] in H.
    match type of H with (if ?n' <=? _ then _ else _) = _ => set (m := n') in * end.
    destruct (Z.leb_spec m 65535); [|discriminate].
    injection H as <- <-. subst m. split; [|lia].
    match goal with |- context [encode ?n'] =>
      destruct (encode_cases n' ltac:(lia)) as [[? _]|[[_ ->]|[? _]]]; [lia| |lia]
    end.
    cbn [app]. f_equal; [|f_equal]; symmetry; apply byte_of_Z_eq; divlia. }
  destruct bs as [|b2 bs]; [discriminate|]. cbn [decode_loop] in H.
  pose proof (byte_to_Z_range b2) as R2.
  destruct (Z.ltb_spec (byte_to_Z b2) 128) as [L2|L2]; [|discriminate].
  destruct (Z.eqb_spec (byte_to_Z b2) 0) as [|N2]; [discriminate|].
  cbn [andb decoder_bind] in H.
  match type of H with (if ?n' <=? _ then _ else _) = _ => set (m := n') in * end.
  destruct (Z.leb_spec m 65535); [|discriminate].
  injection H as <- <-. subst m. split; [|lia].
  match goal with |- context [encode ?n'] =>
    destruct (encode_cases n' ltac:(lia)) as [[? _]|[[? _]|[_ ->]]]; [lia|lia|]
  end.
  cbn [app]. f_equal; [|f_equal; [|f_equal]]; symmetry; apply byte_of_Z_eq; divlia.
Qed.

Lemma decode_loop_strict_plain (fuel : nat) (weight acc : Z)
    (bytes : list byte) (r : Z * list byte) :
  decode_loop true fuel weight acc bytes = Success r ->
  decode_loop false fuel weight acc bytes = Success r.
Proof.
  revert weight acc bytes.
  induction fuel as [|fuel IH]; intros weight acc bytes; [discriminate|].
  destruct bytes as [|b bs]; [discriminate|]. cbn [decode_loop].
  destruct (byte_to_Z b <? 128); [|apply IH].
  cbn [andb]. destruct ((byte_to_Z b =? 0) && (1 <? weight)); [discriminate|done].
Qed.

Lemma decode_prefix_strict_plain (bytes : list byte) (n : Z) (rest : list byte) :
  decode_prefix true bytes = Success (n, rest) ->
  decode_prefix false bytes = Success (n, rest).
Proof.
  unfold decode_prefix.
  destruct (decode_loop true 3 1 0 bytes) as [r|] eqn:E; [|discriminate].
  rewrite (decode_loop_strict_plain _ _ _ _ _ E). done.
Qed.

Lemma compactU16_laws : CodecLaws compactU16.
Proof.
  split; cbn [encodeItem decodeItem expressible compactU16].
  - intros strict n rest Hn. by apply decode_prefix_encode.
  - apply encode_decode_prefix.
  - apply decode_prefix_strict_plain.
  - intros n Hn. pose proof (encode_length n Hn). lia.
Qed.

(** C5: for every [n] from 0 to 65535, decoding the encoding of [n]
    gives back [n] and consumes the whole encoding, which has between 1
    and 3 bytes. *)
Theorem compact_length_round_trip (n : Z) :
  0 <= n <= 65535 ->
  decode (encode n) 0 = Success (n, length (encode n))
  /\ (1 <= length (encode n) <= 3)%nat.
Proof.
  intros Hn. split; [|by apply encode_length].
  unfold decode. rewrite drop_0.
  rewrite <- (app_nil_r (encode n)) at 1.
  rewrite decode_prefix_encode by done. cbn [decoder_bind length].
  do 2 f_equal. lia.
Qed.

Lemma compact_length_round_trip_witness :
  0 <= 300 <= 65535
  /\ decode (encode 300) 0 = Success (300, 2%nat)
  /\ decode (encode 65535) 0 = Success (65535, 3%nat).
Proof.
  split; [lia|]. split.
  - exact (proj1 (compact_length_round_trip 300 ltac:(lia))).
  - exact (proj1 (compact_length_round_trip 65535 ltac:(lia))).
Defined.

End CompactLengthFacts.

(** ** Codec laws of the building blocks *)

Section CodecFacts.
Import CompactArrayCodec MessageCodec.

Lemma u8_laws : CodecLaws u8.
Proof.
  split; cbn [encodeItem decodeItem expressible u8].
  - reflexivity.
  - intros [|b bs] a rest [= <- <-]. done.
  - done.
  - intros; cbn; lia.
Qed.

Lemma fixedBytes_laws (n : nat) : (0 < n)%nat -> CodecLaws (fixedBytes n).
Proof.
  intros Hn. split; cbn [encodeItem decodeItem expressible fixedBytes].
  - intros _ value rest <-.
    rewrite decide_False by (rewrite length_app; lia).
    by rewrite take_app_length, drop_app_length.
  - intros bytes a rest. case_decide as Hlen; [discriminate|].
    intros [= <- <-]. rewrite take_drop, length_take. split; [done|lia].
  - done.
  - intros value ->. done.
Qed.

Lemma followedBy_laws {A B} (first : Codec A) (second : Codec B) :
  CodecLaws first -> CodecLaws second -> CodecLaws (followedBy first second).
Proof.
  intros L1 L2. split; cbn [encodeItem decodeItem expressible followedBy].
  - intros strict [a b] rest [Ha Hb]. cbn [fst snd] in *.
    rewrite <- app_assoc, (decode_encode _ L1) by done. cbn [decoder_bind].
    rewrite (decode_encode _ L2) by done. reflexivity.
  - intros bytes [a b] rest H.
    destruct (decodeItem first true bytes) as [[a' r1]|] eqn:E1; [|discriminate].
    cbn [decoder_bind] in H.
    destruct (decodeItem second true r1) as [[b' r2]|] eqn:E2; [|discriminate].
    cbn [decoder_bind] in H. injection H as <- <- <-.
    apply (encode_decode _ L1) in E1 as [-> Ha].
    apply (encode_decode _ L2) in E2 as [-> Hb].
    cbn [fst snd]. by rewrite app_assoc.
  - intros bytes [a b] rest H.
    destruct (decodeItem first true bytes) as [[a' r1]|] eqn:E1; [|discriminate].
    cbn [decoder_bind] in H.
    destruct (decodeItem second true r1) as [[b' r2]|] eqn:E2; [|discriminate].
    rewrite (strict_plain _ L1 _ _ _ E1). cbn [decoder_bind].
    rewrite (strict_plain _ L2 _ _ _ E2). exact H.
  - intros [a b] [Ha _]. cbn [fst snd] in *. rewrite length_app.
    pose proof (encode_nonempty _ L1 a Ha). lia.
Qed.

Lemma record_laws {A B} (build : A -> B) (fields : B -> A) (c : Codec A) :
  (forall v, build (fields v) = v) ->
  (forall a, fields (build a) = a) ->
  CodecLaws c -> CodecLaws (record build fields c).
Proof.
  intros Hbf Hfb L. split; cbn [encodeItem decodeItem expressible record].
  - intros strict v rest Hv.
    rewrite (decode_encode _ L) by done. cbn [decoder_bind]. by rewrite Hbf.
  - intros bytes v rest H.
    destruct (decodeItem c true bytes) as [[a r]|] eqn:E; [|discriminate].
    cbn [decoder_bind] in H. injection H as <- <-.
    rewrite Hfb. by apply (encode_decode _ L).
  - intros bytes v rest H.
    destruct (decodeItem c true bytes) as [[a r]|] eqn:E; [|discriminate].
    rewrite (strict_plain _ L _ _ _ E). exact H.
  - intros v Hv. by apply (encode_nonempty _ L).
Qed.

Section CompactArray.
Context {A : Type} (item : Codec A) (L : CodecLaws item).

Lemma encoded_items_length (items : list A) :
  Forall (expressible item) items ->
  (length items <= length (concat (map (encodeItem item) items)))%nat.
Proof.
  induction 1 as [|x items Hx _ IH]; [done|].
  cbn [map concat length]. rewrite length_app.
  pose proof (encode_nonempty _ L x Hx). lia.
Qed.

Lemma decode_items_encoded (strict : bool) (items : list A) (rest : list byte) :
  Forall (expressible item) items ->
  decode_items (decodeItem item strict) (length items)
    (concat (map (encodeItem item) items) ++ rest)
  = Success (items, rest).
Proof.
  induction 1 as [|x items Hx _ IH]; [reflexivity|].
  cbn [map concat length decode_items].
  rewrite <- app_assoc, (decode_encode _ L) by done. cbn [decoder_bind].
  rewrite IH. reflexivity.
Qed.

Lemma decode_items_strict (count : nat) (bytes : list byte)
    (items : list A) (rest : list byte) :
  decode_items (decodeItem item true) count bytes = Success (items, rest) ->
  bytes = concat (map (encodeItem item) items) ++ rest
  /\ Forall (expressible item) items
  /\ length items = count
  /\ decode_items (decodeItem item false) count bytes = Success (items, rest).
Proof.
  revert bytes items. induction count as [|count IH]; intros bytes items H.
  - injection H as <- <-. done.
  - cbn [decode_items] in H |- *.
    destruct (decodeItem item true bytes) as [[x r1]|] eqn:E1; [|discriminate].
    cbn [decoder_bind] in H.
    destruct (decode_items (decodeItem item true) count r1) as [[xs r2]|] eqn:E2;
      [|discriminate].
    cbn [decoder_bind] in H. injection H as <- <-.
    rewrite (strict_plain _ L _ _ _ E1). cbn [decoder_bind].
    apply (encode_decode _ L) in E1 as [-> Hx].
    apply IH in E2 as (-> & Hxs & <- & ->).
    cbn [map concat length decoder_bind]. rewrite <- app_assoc.
    split; [done|]. split; [by constructor|]. done.
Qed.

Lemma compactArray_laws : CodecLaws (compactArray item).
Proof.
  split; cbn [encodeItem decodeItem expressible compactArray];
    unfold encodeArray, decodeArray.
  - intros strict items rest [Hlen Hitems].
    rewrite <- app_assoc, decode_prefix_encode by lia. cbn [decoder_bind].
    pose proof (encoded_items_length items Hitems).
    destruct (Z.ltb_spec
                (Z.of_nat (length (concat (map (encodeItem item) items) ++ rest)))
                (Z.of_nat (length items))) as [Hlt|_].
    { rewrite length_app in Hlt. lia. }
    rewrite Nat2Z.id. by apply decode_items_encoded.
  - intros bytes items rest H.
    destruct (decode_prefix true bytes) as [[count r0]|] eqn:E0; [|discriminate].
    cbn [decoder_bind] in H.
    destruct (Z.of_nat (length r0) <? count); [discriminate|].
    apply encode_decode_prefix in E0 as [-> Hcount].
    apply decode_items_strict in H as (-> & Hitems & Hlen & _).
    rewrite Hlen, Z2Nat.id, <- app_assoc by lia. repeat split; [lia|done].
  - intros bytes items rest H.
    destruct (decode_prefix true bytes) as [[count r0]|] eqn:E0; [|discriminate].
    rewrite (decode_prefix_strict_plain _ _ _ E0).
    cbn [decoder_bind] in H |- *.
    destruct (Z.of_nat (length r0) <? count); [discriminate|].
    by apply decode_items_strict in H as (_ & _ & _ & ->).
  - intros items [Hlen _]. rewrite length_app.
    pose proof (encode_length (Z.of_nat (length items)) ltac:(lia)). lia.
Qed.

End CompactArray.

End CodecFacts.

(** ** The message codec *)

Section MessageCodecFacts.
Import CompactArrayCodec MessageCodec.

Lemma address_laws : CodecLaws address.
Proof.
  apply record_laws; [by intros [] | done | apply fixedBytes_laws; lia].
Qed.

Lemma header_laws : CodecLaws header.
Proof.
  apply record_laws; [by intros [] | by intros [? [? ?]] |].
  repeat apply followedBy_laws; apply u8_laws.
Qed.

Lemma instruction_laws : CodecLaws instruction.
Proof.
  apply record_laws; [by intros [] | by intros [? [? ?]] |].
  repeat apply followedBy_laws;
    first [apply u8_laws | apply compactArray_laws, u8_laws].
Qed.

Lemma lookup_laws : CodecLaws lookup.
Proof.
  apply record_laws; [by intros [] | by intros [? [? ?]] |].
  repeat apply followedBy_laws;
    first [apply address_laws | apply compactArray_laws, u8_laws].
Qed.

Lemma body_laws : CodecLaws body.
Proof.
  apply record_laws; [by intros [] | by intros [? [? [? ?]]] |].
  apply followedBy_laws; [apply header_laws|].
  apply followedBy_laws; [apply compactArray_laws, address_laws|].
  apply followedBy_laws; [apply fixedBytes_laws; lia|].
  apply compactArray_laws, instruction_laws.
Qed.

Lemma v0_laws : CodecLaws (body |> compactArray lookup).
Proof.
  apply followedBy_laws; [apply body_laws | apply compactArray_laws, lookup_laws].
Qed.

(** The first byte of the shared fields is the signer count. *)
Lemma body_first_byte (m : MessageBody) :
  exists tail, encodeItem body m = signerCount (messageHeader m) :: tail.
Proof.
  destruct m as [[s rs rn] k b i]. eexists. reflexivity.
Qed.

Lemma decodeMessage_serialize (strict : bool) (message : CompiledMessage) :
  expressible_message message ->
  decodeMessage strict (serialize message) = Success (message, []).
Proof.
  destruct message as [m|m lookups]; cbn [expressible_message serialize].
  - intros [Hsigners Hm].
    destruct (body_first_byte m) as [tail Etail].
    unfold decodeMessage. rewrite Etail.
    destruct (Z.leb_spec 128 (byte_to_Z (signerCount (messageHeader m)))); [lia|].
    rewrite <- Etail, <- (app_nil_r (encodeItem body m)).
    rewrite (decode_encode _ body_laws) by done. reflexivity.
  - intros Hm. unfold decodeMessage, versionMarker.
    change (128 <=? byte_to_Z x80) with true.
    change (byte_to_Z x80 mod 128 =? 0) with true. cbv iota.
    rewrite <- (app_nil_r (encodeItem _ (m, lookups))).
    rewrite (decode_encode _ v0_laws) by done. reflexivity.
Qed.

Lemma decodeMessage_strict (bytes : list byte) (message : CompiledMessage) :
  decodeMessage true bytes = Success (message, []) ->
  decodeMessage false bytes = Success (message, [])
  /\ expressible_message message
  /\ serialize message = bytes.
Proof.
  unfold decodeMessage. destruct bytes as [|first rest]; [discriminate|].
  destruct (Z.leb_spec 128 (byte_to_Z first)) as [Hhigh|Hlow].
  - destruct (Z.eqb_spec (byte_to_Z first mod 128) 0) as [Hver|]; [|discriminate].
    intros H.
    destruct (decodeItem (body |> compactArray lookup) true rest)
      as [[[m lookups] r]|] eqn:E; [|discriminate].
    cbn [decoder_bind fst snd] in H. injection H as <- ->.
    rewrite (strict_plain _ v0_laws _ _ _ E).
    apply (encode_decode _ v0_laws) in E as [-> Hm].
    split; [reflexivity|]. split; [exact Hm|].
    cbn [serialize]. rewrite app_nil_r. f_equal.
    pose proof (byte_to_Z_range first).
    change versionMarker with (byte_of_Z 128). apply byte_of_Z_eq. divlia.
  - intros H.
    destruct (decodeItem body true (first :: rest)) as [[m r]|] eqn:E; [|discriminate].
    cbn [decoder_bind] in H. injection H as <- ->.
    rewrite (strict_plain _ body_laws _ _ _ E).
    apply (encode_decode _ body_laws) in E as [E Hm].
    rewrite app_nil_r in E.
    split; [reflexivity|]. split; [|by cbn [serialize]].
    split; [|exact Hm].
    destruct (body_first_byte m) as [tail Etail].
    rewrite Etail in E. by injection E as <- _.
Qed.

(** Encoding then decoding an expressible message gives the message
    back, and the encoding is well formed. *)
Lemma deserialize_serialize (message : CompiledMessage) :
  expressible_message message ->
  deserialize (serialize message) = Success message
  /\ well_formed (serialize message).
Proof.
  intros Hm. split.
  - unfold deserialize. by rewrite decodeMessage_serialize.
  - exists message. by apply decodeMessage_serialize.
Qed.

(** Decoding then encoding a well-formed byte sequence gives the bytes
    back. *)
Lemma serialize_deserialize (bytes : list byte) :
  well_formed bytes ->
  exists message,
    deserialize bytes = Success message
    /\ expressible_message message
    /\ serialize message = bytes.
Proof.
  intros [message H]. apply decodeMessage_strict in H as (H & Hm & Hs).
  exists message. unfold deserialize. by rewrite H.
Qed.

(** Closes the side conditions of a concrete message: counts, field
    lengths and the per-item conditions. *)
Ltac expressible_sample :=
  cbn; repeat first [split | constructor]; cbn; try reflexivity; try lia.

Lemma empty_legacy_expressible : expressible_message MessageSamples.empty_legacy.
Proof. expressible_sample. Qed.

Lemma empty_v0_expressible : expressible_message MessageSamples.empty_v0.
Proof. expressible_sample. Qed.

Lemma transfer_v0_expressible : expressible_message MessageSamples.transfer_v0.
Proof. expressible_sample. Qed.

(** A legacy message with 128 signers does not survive the round trip:
    its first byte, the signer count [0x80], is read as the marker of a
    V0 message.  All its counts fit the length prefix and all its keys
    have 32 bytes. *)
Lemma many_signers_not_round_trip :
  (exists m, MessageSamples.many_signers = Legacy m /\ expressible body m)
  /\ deserialize (serialize MessageSamples.many_signers)
     <> Success MessageSamples.many_signers.
Proof.
  split.
  - eexists. split; [reflexivity|]. expressible_sample.
  - intros H. vm_compute in H. discriminate H.
Qed.

(** The plain decoder also accepts a count that is longer than needed;
    such input is not well formed, and encoding the decoded message
    gives other bytes. *)
Lemma padded_count_not_round_trip :
  exists message,
    deserialize MessageSamples.padded_count = Success message
    /\ serialize message <> MessageSamples.padded_count
    /\ ~ well_formed MessageSamples.padded_count.
Proof.
  eexists. split; [reflexivity|]. split; [discriminate|].
  intros [message H]. discriminate H.
Qed.

(** C4: both formats round-trip on what the wire format can express.
    For every message whose counts fit the length prefix, whose keys
    and blockhash have 32 bytes and, if legacy, which has fewer than
    128 signers, decoding the encoding gives the message back; for
    every well-formed byte sequence, encoding the decoded message gives
    the bytes back. *)
Theorem message_codec_round_trip :
  (forall message,
      expressible_message message ->
      deserialize (serialize message) = Success message)
  /\ (forall bytes,
        well_formed bytes ->
        exists message,
          deserialize bytes = Success message /\ serialize message = bytes).
Proof.
  split.
  - intros message Hm. by apply deserialize_serialize.
  - intros bytes Hb.
    destruct (serialize_deserialize bytes Hb) as (message & H & _ & Hs).
    by exists message.
Qed.

Lemma message_codec_round_trip_witness :
  deserialize (serialize MessageSamples.empty_legacy)
    = Success MessageSamples.empty_legacy
  /\ deserialize (serialize MessageSamples.empty_v0)
     = Success MessageSamples.empty_v0
  /\ exists message,
       deserialize (serialize MessageSamples.transfer_v0) = Success message
       /\ serialize message = serialize MessageSamples.transfer_v0.
Proof.
  destruct message_codec_round_trip as [Hm Hb].
  split; [exact (Hm _ empty_legacy_expressible)|].
  split; [exact (Hm _ empty_v0_expressible)|].
  apply Hb. exists MessageSamples.transfer_v0. reflexivity.
Defined.

End MessageCodecFacts.

(** * Further properties of the lookup-table reader *)

Section LookupTableMore.
Import BufferLayout LookupTable LookupTableSpec.

(** Cutting a list of [32 * n] bytes into [n] groups of 32 and joining
    the groups gives the list back. *)
Lemma concat_groups (l : list byte) (n : nat) :
  length l = (32 * n)%nat ->
  concat (map (fun i : nat => take 32 (drop (32 * i) l)) (List.seq 0 n)) = l.
Proof.
  revert l. induction n as [|n IH]; intros l Hl.
  - destruct l; [reflexivity | discriminate].
  - cbn [List.seq map concat]. rewrite <- seq_shift, map_map.
    transitivity (take 32 l ++ drop 32 l); [|apply take_drop].
    f_equal.
    etransitivity; [|apply (IH (drop 32 l)); rewrite length_drop; lia].
    f_equal. apply map_ext. intros i. rewrite drop_drop. do 2 f_equal. lia.
Qed.

(** X1: the addresses of the returned state hold, in order, exactly the
    bytes of the account data after the 56 bytes of metadata: nothing is
    dropped, reordered or added. *)
Theorem deserialize_addresses_lossless
    (accountData : Uint8Array) (s : AddressLookupTableState) :
  deserialize_outcome accountData = Ok s ->
  concat (map toBytes (addresses s)) = drop 56 accountData.
Proof.
  intros Hs. apply deserialize_outcome_Ok in Hs as [[Hlen Hmod] ->].
  cbn [addresses decoded_state]. rewrite map_map.
  pose proof (Nat.div_mod_eq (length accountData - 56) 32) as Hdiv.
  rewrite <- (concat_groups (drop 56 accountData)
                ((length accountData - 56) / 32))
    by (rewrite length_drop; lia).
  f_equal. apply map_ext. intros i. cbn [toBytes address_at].
  by rewrite drop_drop.
Qed.

Lemma deserialize_addresses_lossless_witness :
  exists s,
    deserialize_outcome LookupTableSamples.active_table = Ok s
    /\ concat (map toBytes (addresses s))
       = replicate 32 x11 ++ replicate 32 x22.
Proof.
  eexists. split; [reflexivity|].
  exact (deserialize_addresses_lossless LookupTableSamples.active_table _ eq_refl).
Defined.

(** Two buffers that agree on the positions [o .. o + n - 1] have the
    same [n] bytes at [o]. *)
Lemma take_drop_agree (d1 d2 : Uint8Array) (o n : nat) :
  (forall i : nat, (o <= i < o + n)%nat -> d1 !! i = d2 !! i) ->
  take n (drop o d1) = take n (drop o d2).
Proof.
  intros H. apply list_eq. intros j.
  destruct (decide (j < n)%nat) as [Hj|Hj].
  - rewrite !lookup_take_lt, !lookup_drop by done. apply H. lia.
  - rewrite !lookup_take_ge by lia. reflexivity.
Qed.

Lemma decoded_state_agree (d1 d2 : Uint8Array) :
  length d1 = length d2 ->
  (forall i : nat, i <> 54%nat -> i <> 55%nat -> d1 !! i = d2 !! i) ->
  decoded_state d1 = decoded_state d2.
Proof.
  intros Hlen H.
  assert (Hrange : forall o n : nat,
             (o + n <= 54 \/ 56 <= o)%nat ->
             take n (drop o d1) = take n (drop o d2)).
  { intros o n Hon. apply take_drop_agree. intros i Hi. apply H; lia. }
  unfold decoded_state, nu64_at, authority_at, uint_at.
  rewrite Hlen.
  rewrite (Hrange 4%nat 4%nat), (Hrange (4 + 4)%nat 4%nat),
    (Hrange 12%nat 4%nat), (Hrange (12 + 4)%nat 4%nat),
    (Hrange 20%nat 1%nat), (Hrange 21%nat 1%nat), (Hrange 22%nat 32%nat) by lia.
  f_equal. apply map_ext. intros i. unfold address_at. f_equal.
  apply Hrange. lia.
Qed.

(** X2: the two bytes at offsets 54 and 55, between the authority and
    the first address, are never looked at: account data that differs
    from [accountData] at most there is read as the same state. *)
Theorem deserialize_ignores_padding
    (accountData other : Uint8Array) (s : AddressLookupTableState) :
  length accountData = length other ->
  (forall i : nat, i <> 54%nat -> i <> 55%nat -> accountData !! i = other !! i) ->
  deserialize_outcome accountData = Ok s ->
  deserialize_outcome other = Ok s.
Proof.
  intros Hlen Hagree Hs.
  apply deserialize_outcome_accepted in Hs as [[Hvalid Htag] ->].
  assert (Hvalid' : accepted other).
  { split; [unfold valid_length in *; by rewrite <- Hlen|].
    rewrite <- Htag. unfold uint_at. f_equal. symmetry.
    apply take_drop_agree. intros i Hi. apply Hagree; lia. }
  unfold deserialize_outcome. rewrite (deserialize_valid _ Hvalid').
  cbn [fst]. f_equal. symmetry. by apply decoded_state_agree.
Qed.

Lemma deserialize_ignores_padding_witness :
  exists s,
    deserialize_outcome LookupTableSamples.active_table = Ok s
    /\ deserialize_outcome
         (<[54%nat := xff]> (<[55%nat := x01]> LookupTableSamples.active_table))
       = Ok s.
Proof.
  destruct (deserialize_outcome LookupTableSamples.active_table) as [s|e] eqn:Hs;
    [|vm_compute in Hs; discriminate Hs].
  exists s. split; [reflexivity|].
  apply (deserialize_ignores_padding LookupTableSamples.active_table);
    [vm_compute; reflexivity | | exact Hs].
  intros i H54 H55. unfold Uint8Array.
  by rewrite !list_lookup_insert_ne by lia.
Defined.

(** *** How exact the decoded slots are *)

Lemma le_unsigned_bound (bs : list byte) :
  le_unsigned bs < 256 ^ Z.of_nat (length bs).
Proof.
  induction bs as [|b bs IH]; [cbn; lia|].
  cbn [le_unsigned length]. rewrite Nat2Z.inj_succ, Z.pow_succ_r by lia.
  pose proof (byte_to_Z_range b). lia.
Qed.

Lemma uint_at_8_range (data : Uint8Array) (o : nat) :
  0 <= uint_at data o 8 < 2 ^ 64.
Proof.
  unfold uint_at. split; [apply le_unsigned_nonneg|].
  pose proof (le_unsigned_bound (take 8 (drop o data))) as Hb.
  assert (256 ^ Z.of_nat (length (take 8 (drop o data))) <= 256 ^ 8).
  { apply Z.pow_le_mono_r; [lia|]. rewrite length_take. lia. }
  change (256 ^ 8) with (2 ^ 64) in *. lia.
Qed.

Lemma round_to_double_exact (z : Z) : z < 2 ^ 53 -> round_to_double z = z.
Proof.
  intros Hz. unfold round_to_double.
  destruct (Z.ltb_spec z (2 ^ 53)); [reflexivity | lia].
Qed.

Lemma round_to_double_error (z : Z) :
  0 <= z < 2 ^ 64 -> Z.abs (round_to_double z - z) <= 1024.
Proof.
  intros Hz. unfold round_to_double.
  destruct (Z.ltb_spec z (2 ^ 53)) as [|Hbig]; [lia|].
  assert (He : 1 <= Z.log2 z - 52 <= 11).
  { assert (53 <= Z.log2 z) by (apply Z.log2_le_pow2; lia).
    assert (Z.log2 z < 64) by (apply Z.log2_lt_pow2; lia). lia. }
  set (e := Z.log2 z - 52) in *.
  assert (HP : 2 <= 2 ^ e <= 2048).
  { split.
    - change 2 with (2 ^ 1) at 1. apply Z.pow_le_mono_r; lia.
    - change 2048 with (2 ^ 11). apply Z.pow_le_mono_r; lia. }
  set (P := 2 ^ e) in *.
  pose proof (Z.div_mod z P ltac:(lia)) as Hdiv.
  pose proof (Z.mod_pos_bound z P ltac:(lia)) as Hr.
  set (q := z / P) in *. set (r := z mod P) in *.
  replace ((q + 1) * P) with (P * q + P) by ring.
  replace (q * P) with (P * q) by ring.
  repeat case_match; lia.
Qed.

(** X3: the decoded deactivation slot and last-extended slot equal the
    64-bit little-endian values at offsets 4 and 12 whenever those are
    below [2^53]; a larger value is read with an error of at most 1024.
    The start index is the byte at offset 20. *)
Theorem deserialize_slots_accuracy
    (accountData : Uint8Array) (s : AddressLookupTableState) :
  deserialize_outcome accountData = Ok s ->
  (uint_at accountData 4 8 < 2 ^ 53 ->
     deactivationSlot s = uint_at accountData 4 8)
  /\ (uint_at accountData 12 8 < 2 ^ 53 ->
       lastExtendedSlot s = uint_at accountData 12 8)
  /\ Z.abs (deactivationSlot s - uint_at accountData 4 8) <= 1024
  /\ Z.abs (lastExtendedSlot s - uint_at accountData 12 8) <= 1024
  /\ exists b : byte,
       accountData !! 20%nat = Some b
       /\ lastExtendedSlotStartIndex s = byte_to_Z b.
Proof.
  intros Hs. apply deserialize_outcome_Ok in Hs as [[Hlen _] ->].
  cbn [deactivationSlot lastExtendedSlot lastExtendedSlotStartIndex decoded_state].
  rewrite !nu64_at_uint64 by lia.
  split; [apply round_to_double_exact|].
  split; [apply round_to_double_exact|].
  split; [apply round_to_double_error, uint_at_8_range|].
  split; [apply round_to_double_error, uint_at_8_range|].
  destruct (lookup_lt_is_Some_2 accountData 20) as [b Hb]; [lia|].
  exists b. split; [done|]. unfold uint_at.
  rewrite (drop_S _ _ _ Hb). cbn [firstn le_unsigned]. rewrite take_0.
  cbn [le_unsigned]. lia.
Qed.

Lemma deserialize_slots_accuracy_witness :
  exists s,
    deserialize_outcome MoreLookupTableSamples.deactivated_table = Ok s
    /\ deactivationSlot s = 1000
    /\ lastExtendedSlot s = 7.
Proof.
  eexists. split; [reflexivity|].
  destruct (deserialize_slots_accuracy MoreLookupTableSamples.deactivated_table
              _ eq_refl) as (Hd & Hl & _).
  split; [exact (Hd eq_refl) | exact (Hl eq_refl)].
Defined.

(** *** Extending a table *)

Lemma take_drop_app_before (data extra : Uint8Array) (o n : nat) :
  (o + n <= length data)%nat ->
  take n (drop o (data ++ extra)) = take n (drop o data).
Proof.
  intros H. rewrite drop_app_le by lia.
  apply take_app_le. rewrite length_drop. lia.
Qed.

(** X4: appending the 32 bytes of one more address to account data that
    [deserialize] accepts gives account data it accepts too; the state
    read from it has the same slots, start index and authority, and the
    same addresses followed by the new one. *)
Theorem deserialize_append_address
    (accountData address : Uint8Array) (s : AddressLookupTableState) :
  deserialize_outcome accountData = Ok s ->
  length address = 32%nat ->
  deserialize_outcome (accountData ++ address)
  = Ok (mkState (deactivationSlot s) (lastExtendedSlot s)
          (lastExtendedSlotStartIndex s) (authority s)
          (addresses s ++ [mkPublicKey address])).
Proof.
  intros Hs Haddr.
  apply deserialize_outcome_accepted in Hs as [[[Hlen Hmod] Htag] ->].
  pose proof (Nat.div_mod_eq (length accountData - 56) 32) as Hdiv.
  assert (Hvalid : accepted (accountData ++ address)).
  { split.
    - unfold valid_length. rewrite length_app, Haddr. split; [lia|].
      replace (length accountData + 32 - 56)%nat
        with (length accountData - 56 + 1 * 32)%nat by lia.
      by rewrite Nat.Div0.mod_add.
    - rewrite <- Htag. unfold uint_at. f_equal.
      apply take_drop_app_before. lia. }
  unfold deserialize_outcome. rewrite (deserialize_valid _ Hvalid).
  cbn [fst deactivationSlot lastExtendedSlot lastExtendedSlotStartIndex
       authority addresses decoded_state].
  f_equal. unfold decoded_state, nu64_at, authority_at, uint_at.
  rewrite !take_drop_app_before by lia.
  f_equal. rewrite length_app, Haddr.
  replace ((length accountData + 32 - 56) / 32)%nat
    with (S ((length accountData - 56) / 32)).
  2:{ replace (length accountData + 32 - 56)%nat
        with (length accountData - 56 + 1 * 32)%nat by lia.
      rewrite Nat.div_add by lia. lia. }
  rewrite seq_S, map_app. cbn [map]. f_equal.
  - apply map_ext_in. intros i Hi. apply in_seq in Hi.
    unfold address_at. f_equal. apply take_drop_app_before. lia.
  - unfold address_at. do 2 f_equal.
    rewrite drop_app_length' by lia. by rewrite take_ge by lia.
Qed.

Lemma deserialize_append_address_witness :
  exists s,
    deserialize_outcome LookupTableSamples.active_table = Ok s
    /\ length (addresses s) = 2%nat
    /\ exists s',
         deserialize_outcome
           (LookupTableSamples.active_table
              ++ MoreLookupTableSamples.one_more_address) = Ok s'
         /\ addresses s'
            = addresses s
                ++ [mkPublicKey MoreLookupTableSamples.one_more_address].
Proof.
  destruct (deserialize_outcome LookupTableSamples.active_table) as [s|e] eqn:Hs;
    [|vm_compute in Hs; discriminate Hs].
  exists s. split; [reflexivity|]. split.
  - vm_compute in Hs. injection Hs as <-. reflexivity.
  - eexists. split; [exact (deserialize_append_address _
                                 MoreLookupTableSamples.one_more_address _ Hs eq_refl)|].
    reflexivity.
Defined.

End LookupTableMore.

(** * Further properties of the loader sizing *)

Section LoaderMore.
Import Loader.

Lemma ceil_div_add (a k b : Z) :
  0 < b -> ceil_div (a + k * b) b = ceil_div a b + k.
Proof.
  intros Hb. unfold ceil_div.
  replace (- (a + k * b)) with (- a + (- k) * b) by ring.
  rewrite Z.div_add by lia. lia.
Qed.

(** X6: with a positive chunk size, [k] more full chunks of program data
    cost exactly [2 * k] more signatures, as long as the data length
    stays below [2^53 - 1]. *)
Theorem getMinNumSignatures_add_chunks (PACKET_DATA_SIZE dataLength k : Z) :
  300 < PACKET_DATA_SIZE ->
  0 <= dataLength ->
  0 <= k ->
  dataLength + k * chunkSize PACKET_DATA_SIZE < 2 ^ 53 - 1 ->
  getMinNumSignatures PACKET_DATA_SIZE
    (dataLength + k * chunkSize PACKET_DATA_SIZE)
  = getMinNumSignatures PACKET_DATA_SIZE dataLength + 2 * k.
Proof.
  intros HP Hd Hk Hsafe.
  assert (Hc : 0 < chunkSize PACKET_DATA_SIZE)
    by (unfold chunkSize, CHUNK_SIZE; lia).
  rewrite !getMinNumSignatures_safe by nia.
  rewrite ceil_div_add by done. lia.
Qed.

Lemma getMinNumSignatures_add_chunks_witness :
  getMinNumSignatures 1232 (1000 + 3 * chunkSize 1232)
  = getMinNumSignatures 1232 1000 + 2 * 3.
Proof.
  apply getMinNumSignatures_add_chunks; vm_compute; done.
Defined.

End LoaderMore.

(** * Further properties of [makeWebsocketUrl] *)

Section WebsocketUrlMore.
Import WebsocketUrl.

(** What a successful call says about its argument and its result. *)
Lemma makeWebsocketUrl_Ok_inv (endpoint url : string) :
  makeWebsocketUrl endpoint = Ok url ->
  exists rest,
    endpoint = String.append "https://" rest
    /\ url = String.append "wss://" rest.
Proof.
  unfold makeWebsocketUrl.
  destruct (startsWith endpoint "https://") eqn:Hstart; [|discriminate].
  cbn [negb]. intros [= <-].
  apply startsWith_iff in Hstart as [rest ->]. by exists rest.
Qed.

(** X7: every URL [makeWebsocketUrl] returns starts with "wss://", does
    not start with "https://", and is two characters shorter than the
    endpoint it was made from. *)
Theorem makeWebsocketUrl_result_shape (endpoint url : string) :
  makeWebsocketUrl endpoint = Ok url ->
  startsWith url "wss://" = true
  /\ startsWith url "https://" = false
  /\ (String.length url + 2 = String.length endpoint)%nat.
Proof.
  intros H. apply makeWebsocketUrl_Ok_inv in H as (rest & -> & ->).
  split; [apply startsWith_iff; by exists rest|]. split; [|cbn; lia].
  destruct (startsWith (String.append "wss://" rest) "https://") eqn:E;
    [|reflexivity].
  apply startsWith_iff in E as [r Hr]. discriminate Hr.
Qed.

Lemma makeWebsocketUrl_result_shape_witness :
  startsWith "wss://api.mainnet-beta.solana.com" "wss://" = true
  /\ startsWith "wss://api.mainnet-beta.solana.com" "https://" = false
  /\ (String.length "wss://api.mainnet-beta.solana.com" + 2
      = String.length "https://api.mainnet-beta.solana.com")%nat.
Proof.
  exact (makeWebsocketUrl_result_shape
           "https://api.mainnet-beta.solana.com"
           "wss://api.mainnet-beta.solana.com" eq_refl).
Defined.

Lemma append_inj_l (p s1 s2 : string) :
  String.append p s1 = String.append p s2 -> s1 = s2.
Proof.
  induction p as [|c p IH]; cbn; [done|]. intros [= H]. by apply IH.
Qed.

(** X8: [makeWebsocketUrl] is injective on the endpoints it accepts: two
    endpoints with the same websocket URL are the same endpoint. *)
Theorem makeWebsocketUrl_injective (endpoint1 endpoint2 url : string) :
  makeWebsocketUrl endpoint1 = Ok url ->
  makeWebsocketUrl endpoint2 = Ok url ->
  endpoint1 = endpoint2.
Proof.
  intros H1 H2.
  apply makeWebsocketUrl_Ok_inv in H1 as (rest1 & -> & ->).
  apply makeWebsocketUrl_Ok_inv in H2 as (rest2 & -> & Heq).
  apply (append_inj_l "wss://") in Heq. by subst.
Qed.

Lemma makeWebsocketUrl_injective_witness :
  makeWebsocketUrl "https://localhost:8899/" = Ok "wss://localhost:8899/"%string
  /\ ("https://localhost:8899/" = "https://localhost:8899/")%string.
Proof.
  split; [reflexivity|].
  exact (makeWebsocketUrl_injective "https://localhost:8899/"
           "https://localhost:8899/" "wss://localhost:8899/" eq_refl eq_refl).
Defined.

(** X9: a URL returned by [makeWebsocketUrl] is refused by
    [makeWebsocketUrl]: applied to its own result the function throws,
    with the URL in the message. *)
Theorem makeWebsocketUrl_refuses_result (endpoint url : string) :
  makeWebsocketUrl endpoint = Ok url ->
  makeWebsocketUrl url = Throw (Error (String.append "unsupported URL: " url)).
Proof.
  intros H. apply makeWebsocketUrl_Ok_inv in H as (rest & -> & ->).
  unfold makeWebsocketUrl.
  destruct (startsWith (String.append "wss://" rest) "https://") eqn:E;
    [|reflexivity].
  apply startsWith_iff in E as [r Hr]. discriminate Hr.
Qed.

Lemma makeWebsocketUrl_refuses_result_witness :
  makeWebsocketUrl "wss://localhost:8899/"
  = Throw (Error "unsupported URL: wss://localhost:8899/").
Proof.
  exact (makeWebsocketUrl_refuses_result "https://localhost:8899/"
           "wss://localhost:8899/" eq_refl).
Defined.

End WebsocketUrlMore.

(** * The unique signatures and blockhashes of the RPC mocks *)

Section RpcHttpMocksFacts.
Import RpcHttpMocks.

Lemma BN_toArray_length (n : Z) (len : nat) : length (BN_toArray n len) = len.
Proof.
  revert n. induction len as [|len IH]; intros n; [reflexivity|].
  cbn [BN_toArray]. rewrite length_app, IH. cbn. lia.
Qed.

Lemma byte_to_of_Z_mod (z : Z) : byte_to_Z (byte_of_Z z) = z mod 256.
Proof.
  rewrite <- (byte_to_of_Z (z mod 256)) by (apply Z.mod_pos_bound; lia).
  unfold byte_of_Z. by rewrite Z.mod_mod by lia.
Qed.

(** Reading the array back gives the number, as far as it fits. *)
Lemma be_unsigned_BN_toArray (n : Z) (len : nat) :
  0 <= n -> be_unsigned (BN_toArray n len) = n mod 256 ^ Z.of_nat len.
Proof.
  unfold be_unsigned. revert n. induction len as [|len IH]; intros n Hn.
  - cbn. by rewrite Z.mod_1_r.
  - cbn [BN_toArray]. rewrite rev_app_distr. cbn [rev app le_unsigned].
    rewrite IH by (apply Z.div_pos; lia).
    rewrite byte_to_of_Z_mod, Nat2Z.inj_succ, Z.pow_succ_r by lia.
    rewrite Z.rem_mul_r by lia. reflexivity.
Qed.

Lemma BN_toArray_inj (n m : Z) (len : nat) :
  0 <= n < 256 ^ Z.of_nat len -> 0 <= m < 256 ^ Z.of_nat len ->
  BN_toArray n len = BN_toArray m len -> n = m.
Proof.
  intros Hn Hm Heq. apply (f_equal be_unsigned) in Heq.
  rewrite !be_unsigned_BN_toArray, !Z.mod_small in Heq by lia. exact Heq.
Qed.

Lemma uniqueSignature_safe (bs58_encode : list byte -> string) (c : Z) :
  0 <= c < 2 ^ 53 - 1 ->
  uniqueSignature bs58_encode c
  = (Ok (bs58_encode (BN_toArray (c + 1) 64)), c + 1).
Proof.
  intros Hc. unfold uniqueSignature.
  rewrite round_to_double_exact by lia. cbn [LookupTable.BN_of_number LookupTable.safe_integers].
  destruct (Z.ltb_spec (c + 1) (2 ^ 53)); [reflexivity | lia].
Qed.

Lemma uniqueBlockhash_safe (bs58_encode : list byte -> string) (c : Z) :
  0 <= c < 2 ^ 53 - 1 ->
  uniqueBlockhash bs58_encode c
  = (Ok (bs58_encode (BN_toArray (c + 1) 32)), c + 1).
Proof.
  intros Hc. unfold uniqueBlockhash.
  rewrite round_to_double_exact by lia. cbn [LookupTable.BN_of_number LookupTable.safe_integers].
  destruct (Z.ltb_spec (c + 1) (2 ^ 53)); [reflexivity | lia].
Qed.

(** X10: while the counter is a safe integer, a call of
    [uniqueSignature] or [uniqueBlockhash] advances the counter by one
    and returns the encoding of the 64 or 32 bytes that spell the new
    counter value; calls made at different counter values encode
    different byte strings, whichever of the two functions they are. *)
Theorem unique_mocks_encode_distinct_bytes
    (bs58_encode : list byte -> string) (c1 c2 : Z) :
  0 <= c1 -> c1 < c2 -> c2 < 2 ^ 53 - 1 ->
  exists s1 h1 s2 h2 : list byte,
    uniqueSignature bs58_encode c1 = (Ok (bs58_encode s1), c1 + 1)
    /\ uniqueBlockhash bs58_encode c1 = (Ok (bs58_encode h1), c1 + 1)
    /\ uniqueSignature bs58_encode c2 = (Ok (bs58_encode s2), c2 + 1)
    /\ uniqueBlockhash bs58_encode c2 = (Ok (bs58_encode h2), c2 + 1)
    /\ (length s1 = 64%nat /\ length h1 = 32%nat
        /\ be_unsigned s1 = c1 + 1 /\ be_unsigned h1 = c1 + 1)
    /\ s1 <> s2 /\ s1 <> h2 /\ h1 <> s2 /\ h1 <> h2.
Proof.
  intros H0 Hlt Hsafe.
  exists (BN_toArray (c1 + 1) 64), (BN_toArray (c1 + 1) 32),
         (BN_toArray (c2 + 1) 64), (BN_toArray (c2 + 1) 32).
  rewrite !uniqueSignature_safe, !uniqueBlockhash_safe by lia.
  assert (H64 : 2 ^ 53 <= 256 ^ Z.of_nat 64) by (vm_compute; discriminate).
  assert (H32 : 2 ^ 53 <= 256 ^ Z.of_nat 32) by (vm_compute; discriminate).
  do 4 (split; [reflexivity|]).
  split.
  { rewrite !BN_toArray_length, !be_unsigned_BN_toArray, !Z.mod_small by lia.
    done. }
  repeat split.
  - intros Heq. apply BN_toArray_inj in Heq; lia.
  - intros Heq. apply (f_equal length) in Heq.
    rewrite !BN_toArray_length in Heq. discriminate.
  - intros Heq. apply (f_equal length) in Heq.
    rewrite !BN_toArray_length in Heq. discriminate.
  - intros Heq. apply BN_toArray_inj in Heq; lia.
Qed.

Lemma unique_mocks_encode_distinct_bytes_witness :
  exists s1 s2 : list byte,
    fst (uniqueSignature string_of_list_byte 0) = Ok (string_of_list_byte s1)
    /\ fst (uniqueSignature string_of_list_byte 1) = Ok (string_of_list_byte s2)
    /\ s1 <> s2.
Proof.
  destruct (unique_mocks_encode_distinct_bytes string_of_list_byte 0 1
              ltac:(lia) ltac:(lia) ltac:(lia))
    as (s1 & h1 & s2 & h2 & E1 & _ & E2 & _ & _ & Hne & _).
  exists s1, s2. rewrite E1, E2. done.
Defined.

End RpcHttpMocksFacts.

(** * The curve check of the Ed25519 helpers *)

Section Ed25519Facts.

Lemma q_pos : 0 < Ed25519.q.
Proof. reflexivity. Qed.

Lemma mod_q_eq_iff (a b : Z) :
  a mod Ed25519.q = b mod Ed25519.q <-> (a - b) mod Ed25519.q = 0.
Proof.
  pose proof q_pos. split; intros H0.
  - rewrite Zminus_mod, H0, Z.sub_diag. apply Zmod_0_l.
  - replace a with ((a - b) + b) by ring.
    rewrite Zplus_mod, H0, Z.add_0_l. apply Z.mod_mod. lia.
Qed.

Lemma nacl_M_range (a b : Z) : 0 <= Ed25519.nacl_M a b < Ed25519.q.
Proof. unfold Ed25519.nacl_M. apply Z.mod_pos_bound, q_pos. Qed.

(** The last comparison of [isOnCurve]. *)
Lemma final_check (r den num : Z) :
  (if Ed25519.truthy
        (Ed25519.neq25519 (Ed25519.nacl_M (Ed25519.nacl_S r) den) num)
   then false else true) = true ->
  (r * r * den) mod Ed25519.q = num mod Ed25519.q.
Proof.
  unfold Ed25519.truthy, Ed25519.neq25519, Ed25519.crypto_verify_32,
    Ed25519.pack25519, Ed25519.nacl_S, Ed25519.nacl_M.
  pose proof q_pos.
  destruct (Z.eqb_spec (((r * r) mod Ed25519.q * den) mod Ed25519.q mod Ed25519.q)
              (num mod Ed25519.q)) as [Heq|]; [|discriminate].
  intros _. rewrite Z.mod_mod, Zmult_mod_idemp_l in Heq by lia. exact Heq.
Qed.

(** X11: [isOnCurve] has no false positives.  When it returns [true]
    for 32 bytes that encode the coordinate [y], there is an [x] in the
    field with [-x^2 + y^2 = 1 + d x^2 y^2] modulo [2^255 - 19]: the
    point [(x, y)] is on the curve. *)
Theorem isOnCurve_sound (p : Uint8Array) :
  length p = 32%nat ->
  Ed25519.isOnCurve p = true ->
  let y := Ed25519.unpack25519 p in
  exists x,
    0 <= x < Ed25519.q
    /\ (- (x * x) + y * y) mod Ed25519.q
       = (1 + Ed25519.D * (x * x) * (y * y)) mod Ed25519.q.
Proof.
  intros _. unfold Ed25519.isOnCurve. cbv zeta.
  generalize (Ed25519.unpack25519 p). intros y.
  match goal with
  | |- (if Ed25519.truthy
             (Ed25519.neq25519 (Ed25519.nacl_M (Ed25519.nacl_S ?r) _) _)
        then _ else _) = _ -> _ =>
      assert (Hx : 0 <= r < Ed25519.q)
        by (match goal with
            | |- _ <= (if ?c then _ else _) < _ => destruct c
            end; apply nacl_M_range);
      revert Hx; generalize r
  end.
  intros x Hx H. exists x. split; [exact Hx|].
  pose proof q_pos as Hq. apply final_check in H.
  unfold Ed25519.nacl_A, Ed25519.nacl_Z, Ed25519.nacl_S in H.
  unfold Ed25519.nacl_M in H. change Ed25519.gf1 with 1 in H.
  rewrite Zmult_mod_idemp_l, Zplus_mod_idemp_r, Zmult_mod_idemp_r, Z.mod_mod,
    Zminus_mod_idemp_l in H by lia.
  apply mod_q_eq_iff. apply mod_q_eq_iff in H.
  replace (- (x * x) + y * y - (1 + Ed25519.D * (x * x) * (y * y)))
    with (- (x * x * (1 + y * y * Ed25519.D) - (y * y - 1))) by ring.
  by apply Z.mod_opp_l_z; [lia|].
Qed.

Lemma isOnCurve_sound_witness :
  exists x,
    0 <= x < Ed25519.q
    /\ (- (x * x)
        + Ed25519.unpack25519 Ed25519.base_point
          * Ed25519.unpack25519 Ed25519.base_point) mod Ed25519.q
       = (1 + Ed25519.D * (x * x)
              * (Ed25519.unpack25519 Ed25519.base_point
                 * Ed25519.unpack25519 Ed25519.base_point)) mod Ed25519.q.
Proof.
  apply (isOnCurve_sound Ed25519.base_point); [reflexivity|].
  vm_compute. reflexivity.
Defined.

End Ed25519Facts.

(** * The build configurations *)

Section RollupConfigFacts.
Import RollupConfig.

(** The three outcomes of the case analysis on [configType]. *)
Lemma configType_cases (configType : string) :
  configType = "browser"%string \/ configType = "react-native"%string
  \/ configType = "node"%string
  \/ (configType <> "browser"%string /\ configType <> "react-native"%string
      /\ configType <> "node"%string).
Proof.
  destruct (String.eqb_spec configType "browser"); [tauto|].
  destruct (String.eqb_spec configType "react-native"); [tauto|].
  destruct (String.eqb_spec configType "node"); tauto.
Qed.

Lemma generateConfig_unknown_throws
    (configType : string) (format_ : option string) :
  configType <> "browser"%string -> configType <> "react-native"%string ->
  configType <> "node"%string ->
  is_Throw (generateConfig configType format_).
Proof.
  intros Hb Hr Hn. unfold generateConfig.
  apply String.eqb_neq in Hb as ->, Hr as ->, Hn as ->.
  cbn [orb negb]. by eexists.
Qed.

(** X12: [generateConfig] throws exactly when [configType] is none of
    'browser', 'react-native' and 'node', whatever the format; the error
    names the configuration type. *)
Theorem generateConfig_throws_iff_unknown
    (configType : string) (format_ : option string) :
  (is_Throw (generateConfig configType format_)
     <-> configType <> "browser"%string /\ configType <> "react-native"%string
         /\ configType <> "node"%string)
  /\ (forall e, generateConfig configType format_ = Throw e ->
        e = Error (String.append "Unknown configType: " configType)).
Proof.
  unfold generateConfig.
  destruct (configType_cases configType) as [->|[->|[->|(Hb & Hr & Hn)]]].
  - cbn [String.eqb Ascii.eqb Bool.eqb orb].
    split; [split; [|intros [H _]; by destruct H]|];
      repeat case_match; (intros [e He] || intros e He); discriminate.
  - cbn [String.eqb Ascii.eqb Bool.eqb orb].
    split; [split; [|intros [_ [H _]]; by destruct H]|];
      repeat case_match; (intros [e He] || intros e He); discriminate.
  - cbn [String.eqb Ascii.eqb Bool.eqb orb negb].
    split; [split; [|intros [_ [_ H]]; by destruct H]|];
      (intros [e He] || intros e He); discriminate.
  - apply String.eqb_neq in Hb as Eb, Hr as Er, Hn as En.
    rewrite Eb, Er, En. cbn [orb negb].
    split; [split; [done | intros _; by eexists]|].
    by intros e [= <-].
Qed.

(** The configurations [generateConfig] can return: one per pair of a
    known configuration type and a format case. *)
Lemma generateConfig_Ok_cases
    (configType : string) (format_ : option string) (config : Config) :
  generateConfig configType format_ = Ok config ->
  (configType = "browser"%string \/ configType = "react-native"%string
   \/ configType = "node"%string)
  /\ (format_ = Some "esm"%string \/ format_ = Some "iife"%string
      \/ (format_ <> Some "esm"%string /\ format_ <> Some "iife"%string)).
Proof.
  intros H. split.
  - destruct (configType_cases configType) as [?|[?|[?|(Hb & Hr & Hn)]]];
      try tauto.
    destruct (generateConfig_unknown_throws configType format_ Hb Hr Hn)
      as [e He].
    rewrite He in H. discriminate.
  - destruct format_ as [f|]; [|right; right; done].
    destruct (String.eqb_spec f "esm") as [->|]; [by left|].
    destruct (String.eqb_spec f "iife") as [->|]; [by right; left|].
    right; right. split; congruence.
Qed.

(** Splits a successful call into the seven configurations it can
    return. *)
Ltac generateConfig_cases configType format_ :=
  let Hb := fresh in let Hr := fresh in let Hn := fresh in
  let f := fresh "f" in let Hesm := fresh "Hesm" in
  let Hiife := fresh "Hiife" in
  unfold generateConfig; cbv zeta beta;
  destruct (configType_cases configType) as [->|[->|[->|(Hb & Hr & Hn)]]];
  [ | | | apply String.eqb_neq in Hb, Hr, Hn;
          rewrite Hb, Hr, Hn; discriminate ];
  (destruct format_ as [f|];
   [destruct (String.eqb_spec f "esm") as [->|Hesm];
    [|destruct (String.eqb_spec f "iife") as [->|Hiife]]|]);
  vm_compute; intros [= <-].

(** X13: every configuration [generateConfig] returns has an output
    list and a list of externals, both assigned and not empty; every
    output file is under "lib/index.", in the format 'es', 'cjs' or
    'iife', and no two outputs of a configuration share a file. *)
Theorem generateConfig_outputs
    (configType : string) (format_ : option string) (config : Config) :
  generateConfig configType format_ = Ok config ->
  exists outputs externals,
    output config = Some outputs
    /\ external config = Some externals
    /\ outputs <> [] /\ externals <> []
    /\ Forall (fun o => String.prefix "lib/index." (file o) = true
                        /\ In (format o) ["es"; "cjs"; "iife"]%string)
         outputs
    /\ List.NoDup (map file outputs).
Proof.
  generateConfig_cases configType format_;
    (do 2 eexists; split; [reflexivity|]; split; [reflexivity|];
     split; [discriminate|]; split; [discriminate|]; split;
     [ repeat constructor; cbn; tauto
     | repeat constructor; cbn; intuition discriminate ]).
Qed.

Lemma generateConfig_outputs_witness :
  exists config outputs,
    generateConfig "react-native" None = Ok config
    /\ output config = Some outputs
    /\ map file outputs = ["lib/index.native.js"%string].
Proof.
  destruct (generateConfig "react-native" None) as [config|e] eqn:H;
    [|vm_compute in H; discriminate H].
  destruct (generateConfig_outputs _ _ _ H) as (outputs & externals & Ho & _).
  exists config, outputs. split; [reflexivity|]. split; [exact Ho|].
  vm_compute in H. injection H as <-. injection Ho as <-. reflexivity.
Defined.

(** X14: except for the 'iife' bundle of the browser and react-native
    configurations, every configuration keeps the runtime dependencies
    (among them bn.js, bs58, buffer and tweetnacl) out of the bundle;
    the 'iife' bundle keeps out exactly http, https and node-fetch. *)
Theorem generateConfig_externals
    (configType : string) (format_ : option string) (config : Config) :
  generateConfig configType format_ = Ok config ->
  (configType <> "node"%string /\ format_ = Some "iife"%string
   /\ external config
      = Some [Package "http"; Package "https"; Package "node-fetch"])
  \/ ((configType = "node"%string \/ format_ <> Some "iife"%string)
      /\ exists externals,
           external config = Some externals
           /\ forall dep, In dep runtime_dependencies ->
                          In (Package dep) externals).
Proof.
  generateConfig_cases configType format_;
    first
      [ left; split; [discriminate|]; split; reflexivity
      | right; split; [first [by left | right; congruence]|];
        eexists; split; [reflexivity|];
        intros dep Hdep; cbn in Hdep;
        repeat (destruct Hdep as [<-|Hdep];
                [cbn; repeat first [left; reflexivity | right]|]);
        destruct Hdep ].
Qed.

Lemma generateConfig_externals_witness :
  exists config externals,
    generateConfig "browser" (Some "esm"%string) = Ok config
    /\ external config = Some externals
    /\ In (Package "tweetnacl") externals.
Proof.
  destruct (generateConfig "browser" (Some "esm"%string)) as [config|e] eqn:H;
    [|vm_compute in H; discriminate H].
  destruct (generateConfig_externals _ _ _ H)
    as [(_ & Hf & _)|(_ & externals & He & Hin)]; [discriminate Hf|].
  exists config, externals. split; [reflexivity|]. split; [exact He|].
  apply Hin. vm_compute. tauto.
Defined.

End RollupConfigFacts.
